(** * Maze solver: Node, Maze, heapq-driven best-first search

  A shallow embedding of the notebook's [Node] and [Maze] classes
  (construction from text, [neighbors], [heuristic], [solve]) together with
  the part of CPython's [heapq] module that [solve] calls, followed by the
  properties of the search engine.

  Python values are rendered as follows.
  - [int] is [Z]; cells are pairs [(row, col) : Z * Z].
  - [str] is [string], read as a sequence of code points below 256;
    [list(line)] is [list ascii].
  - the numpy character matrix is a [list (list ascii)] of rows.
  - the [visited] dict is a [gmap (Z * Z) Z], the [all_visited] set a
    [gset (Z * Z)].
  - a [Node] object is never mutated after creation, so the object graph
    reached through [parent] is an inductive value.
  - the three [ValueError]s raised by the code are told apart by a tag. *)

From Stdlib Require Import ZArith Ascii String.
From stdpp Require Import base list gmap.

Set Warnings "-register-all,-clear-no-such-hyp".
Local Open Scope Z_scope.

(** ** Python string operations used by the notebook *)

Module Py.

(** [str.split(sep)] for a one-character separator. *)
Fixpoint split (sep : ascii) (s : string) : list string :=
  match s with
  | EmptyString => [EmptyString]
  | String c s' =>
      if Ascii.eqb c sep then EmptyString :: split sep s'
      else match split sep s' with
           | hd :: tl => String c hd :: tl
           | [] => [String c EmptyString]
           end
  end.

(** [str.isspace] on one code point below 256. *)
Definition isspace (c : ascii) : bool :=
  let n := nat_of_ascii c in
  ((9 <=? n) && (n <=? 13) || (28 <=? n) && (n <=? 32)
   || (n =? 133) || (n =? 160))%nat.

Fixpoint lstrip (s : string) : string :=
  match s with
  | EmptyString => EmptyString
  | String c s' => if isspace c then lstrip s' else s
  end.

(** [rstrip]: a character is dropped when it is white space and everything
    after it has been dropped. *)
Fixpoint rstrip (s : string) : string :=
  match s with
  | EmptyString => EmptyString
  | String c s' =>
      match rstrip s' with
      | EmptyString => if isspace c then EmptyString else String c EmptyString
      | r => String c r
      end
  end.

Definition strip (s : string) : string := rstrip (lstrip s).

(** Truth value of a [str]: non-empty. *)
Definition truthy (s : string) : bool :=
  match s with EmptyString => false | String _ _ => true end.

(** [str.lower] on one code point below 256. *)
Definition lower_char (c : ascii) : ascii :=
  let n := nat_of_ascii c in
  if ((65 <=? n) && (n <=? 90)
      || (192 <=? n) && (n <=? 222) && negb (n =? 215))%nat
  then ascii_of_nat (n + 32) else c.

Fixpoint lower (s : string) : string :=
  match s with
  | EmptyString => EmptyString
  | String c s' => String (lower_char c) (lower s')
  end.

(** [range(n)] as the list of its values. *)
Definition range (n : nat) : list nat := seq 0 n.

End Py.

(** ** heapq: the binary heap of CPython's [Lib/heapq.py]

  The heap is a Python list used as an array; the element order is the
  [__lt__] of the elements, here the parameter [lt].  Index reads that
  would raise [IndexError] do not occur in [heappush]/[heappop]; the
  model leaves the list as it is there. *)

Module heapq.
Section heapq.
Context {A : Type} (lt : A → A → bool).

(** The [while pos > startpos] loop of [_siftdown]; [pos] halves at every
    turn, so [pos] turns are enough and the last clause is the loop exit. *)
Fixpoint siftdown_loop (fuel : nat) (heap : list A) (newitem : A)
    (startpos pos : nat) : list A :=
  match fuel with
  | O => <[pos:=newitem]> heap
  | S fuel' =>
      if bool_decide (startpos < pos)%nat then
        let parentpos := ((pos - 1) / 2)%nat in
        match heap !! parentpos with
        | Some parent =>
            if lt newitem parent
            then siftdown_loop fuel' (<[pos:=parent]> heap) newitem startpos parentpos
            else <[pos:=newitem]> heap
        | None => <[pos:=newitem]> heap
        end
      else <[pos:=newitem]> heap
  end.

Definition siftdown (heap : list A) (startpos pos : nat) : list A :=
  match heap !! pos with
  | Some newitem => siftdown_loop pos heap newitem startpos pos
  | None => heap
  end.

(** [heap[childpos] < heap[rightpos]] *)
Definition lt_at (heap : list A) (i j : nat) : bool :=
  match heap !! i, heap !! j with
  | Some a, Some b => lt a b
  | _, _ => false
  end.

(** The [while childpos < endpos] loop of [_siftup]: the smaller child
    moves up until [pos] is a leaf.  Returns the list and that leaf. *)
Fixpoint siftup_loop (fuel : nat) (heap : list A) (pos : nat) : list A * nat :=
  match fuel with
  | O => (heap, pos)
  | S fuel' =>
      let endpos := length heap in
      let childpos := (2 * pos + 1)%nat in
      if bool_decide (childpos < endpos)%nat then
        let rightpos := (childpos + 1)%nat in
        let childpos :=
          if bool_decide (rightpos < endpos)%nat && negb (lt_at heap childpos rightpos)
          then rightpos else childpos in
        match heap !! childpos with
        | Some c => siftup_loop fuel' (<[pos:=c]> heap) childpos
        | None => (heap, pos)
        end
      else (heap, pos)
  end.

Definition siftup (heap : list A) (pos : nat) : list A :=
  match heap !! pos with
  | Some newitem =>
      let '(heap1, leaf) := siftup_loop (length heap) heap pos in
      siftdown (<[leaf:=newitem]> heap1) pos leaf
  | None => heap
  end.

(** [heappush(heap, item)] *)
Definition heappush (heap : list A) (item : A) : list A :=
  let heap := heap ++ [item] in
  siftdown heap 0 (length heap - 1).

(** [heappop(heap)]: [None] is the [IndexError] of an empty heap. *)
Definition heappop (heap : list A) : option (A * list A) :=
  match reverse heap with
  | [] => None
  | lastelt :: rest =>
      let heap := reverse rest in
      match heap with
      | [] => Some (lastelt, [])
      | returnitem :: _ => Some (returnitem, siftup (<[0%nat:=lastelt]> heap) 0)
      end
  end.

End heapq.
End heapq.

(** ** Outcomes

  Each [raise ValueError(...)] of the notebook, and the [ValueError] that
  numpy raises for a ragged matrix, is an [Error]; a normal return is [Ok]. *)

Inductive Error :=
| MalformedGrid      (* Maze.__init__: bad matrix, or the 'A'/'B' test *)
| InvalidStrategy    (* solve: Algorithm must be either 'a*' or 'greedy' *)
| NoPathError.       (* solve: No path exists from start to goal *)

Inductive result (A : Type) :=
| Ok (a : A)
| Raise (e : Error).
Arguments Ok {A} a.
Arguments Raise {A} e.

(** ** class Node *)

Module Node.

Inductive t := mk {
  state : Z * Z;
  parent : option t;
  action : option string;
  cost : Z;
  heuristic : Z
}.

(** [__lt__] *)
Definition lt (self other : t) : bool :=
  (cost self + heuristic self) <? (cost other + heuristic other).

End Node.

Abbreviation Node := Node.t.

(** ** class Maze *)

Module Maze.

Record t := mk {
  maze : list (list ascii);
  height : Z;
  width : Z;
  start : Z * Z;
  goal : Z * Z
}.

(** *** __init__ *)

(** [[list(line) for line in maze_str.split('\n') if line.strip()]] *)
Definition rows_of (maze_str : string) : list (list ascii) :=
  map list_ascii_of_string
    (List.filter (λ line, Py.truthy (Py.strip line)) (Py.split "010"%char maze_str)).

(** [np.array(rows).shape] unpacked into two names.  A matrix needs at
    least one row and rows of one length; otherwise numpy or the unpacking
    raises. *)
Definition shape (rows : list (list ascii)) : option (nat * nat) :=
  match rows with
  | [] => None
  | r :: rs =>
      if forallb (λ r', Nat.eqb (length r') (length r)) rs
      then Some (length rows, length r) else None
  end.

(** [self.maze[i, j]] for indices that are in range. *)
Definition at_nat (rows : list (list ascii)) (i j : nat) : option ascii :=
  rows !! i ≫= λ r, r !! j.

(** Body of the inner loop of the marker scan. *)
Definition scan_cell (rows : list (list ascii)) (i j : nat)
    (sg : option (Z * Z) * option (Z * Z)) : option (Z * Z) * option (Z * Z) :=
  if bool_decide (at_nat rows i j = Some "A"%char)
  then (Some (Z.of_nat i, Z.of_nat j), sg.2)
  else if bool_decide (at_nat rows i j = Some "B"%char)
  then (sg.1, Some (Z.of_nat i, Z.of_nat j))
  else sg.

Definition scan_row (rows : list (list ascii)) (w : nat)
    (sg : option (Z * Z) * option (Z * Z)) (i : nat) :=
  fold_left (λ sg j, scan_cell rows i j sg) (Py.range w) sg.

Definition scan (rows : list (list ascii)) (h w : nat) :=
  fold_left (scan_row rows w) (Py.range h) (None, None).

(** [self.maze] is [np.array(rows)], an array of dtype <U1.  Such an array
    keeps every character but NUL, which it stores as the empty string; the
    model keeps the rows as they are read, NUL included.  The class compares
    a cell with 'A', 'B' and '#' only, and none of these comparisons tells
    NUL from the empty string. *)
Definition init (maze_str : string) : result t :=
  let rows := rows_of maze_str in
  match shape rows with
  | None => Raise MalformedGrid
  | Some (h, w) =>
      match scan rows h w with
      | (Some s, Some g) => Ok (mk rows (Z.of_nat h) (Z.of_nat w) s g)
      | _ => Raise MalformedGrid
      end
  end.

(** *** neighbors *)

(** [self.maze[ni, nj]]; only read behind the two range tests. *)
Definition at_ (self : t) (c : Z * Z) : option ascii :=
  at_nat (maze self) (Z.to_nat c.1) (Z.to_nat c.2).

Definition directions (state : Z * Z) : list (string * (Z * Z)) :=
  let '(i, j) := state in
  [ ("right"%string, (i, j + 1));
    ("down"%string, (i + 1, j));
    ("left"%string, (i, j - 1));
    ("up"%string, (i - 1, j)) ].

Definition passable (self : t) (c : Z * Z) : Prop :=
  (0 ≤ c.1 < height self) ∧ (0 ≤ c.2 < width self) ∧ at_ self c ≠ Some "#"%char.

Global Instance passable_dec self c : Decision (passable self c) :=
  ltac:(unfold passable; apply _).

Definition neighbors (self : t) (state : Z * Z) : list (string * (Z * Z)) :=
  filter (λ d, passable self d.2) (directions state).

(** *** heuristic *)

Definition heuristic (self : t) (state : Z * Z) : Z :=
  Z.abs (state.1 - (goal self).1) + Z.abs (state.2 - (goal self).2).

(** *** solve

    The call with [visualize=False].  With [visualize=True] the drawing
    calls read the locals and change none of them, so the outcome is the
    same. *)

(** The local variables of [solve] that the loop changes.  [pushed] is a
    ghost log: the states of the nodes handed to [heappush], oldest first. *)
Record locals := mk_locals {
  frontier : list Node;
  visited : gmap (Z * Z) Z;
  all_visited : gset (Z * Z);
  pushed : list (Z * Z)
}.

(** [algorithm.lower() not in ["a*", "greedy"]] *)
Definition bad_algorithm (algorithm : string) : bool :=
  negb (String.eqb (Py.lower algorithm) "a*" || String.eqb (Py.lower algorithm) "greedy").

(** [neighbor_state not in visited or new_cost < visited[neighbor_state]] *)
Definition improves (visited : gmap (Z * Z) Z) (neighbor_state : Z * Z) (new_cost : Z) : bool :=
  match visited !! neighbor_state with
  | None => true
  | Some old => new_cost <? old
  end.

(** Body of [for action, neighbor_state in self.neighbors(...)]. *)
Definition relax (self : t) (algorithm : string) (current_node : Node)
    (st : locals) (an : string * (Z * Z)) : locals :=
  let '(action, neighbor_state) := an in
  let new_cost := Node.cost current_node + 1 in
  if improves (visited st) neighbor_state new_cost then
    let visited := <[neighbor_state:=new_cost]> (visited st) in
    let all_visited := all_visited st ∪ {[neighbor_state]} in
    let priority :=
      if String.eqb (Py.lower algorithm) "greedy"
      then heuristic self neighbor_state
      else new_cost + heuristic self neighbor_state in
    let neighbor_node :=
      Node.mk neighbor_state (Some current_node) (Some action) new_cost
              (heuristic self neighbor_state) in
    mk_locals (heapq.heappush Node.lt (frontier st) neighbor_node)
              visited all_visited (pushed st ++ [neighbor_state])
  else st.

Definition expand (self : t) (algorithm : string) (current_node : Node)
    (st : locals) : locals :=
  fold_left (relax self algorithm current_node)
            (neighbors self (Node.state current_node)) st.

(** The [while node.parent is not None] loop: states and actions from the
    node back towards the root, the root itself left out. *)
Fixpoint trace_back (node : Node) : list (Z * Z) * list (option string) :=
  match Node.parent node with
  | None => ([], [])
  | Some p =>
      let '(path, actions) := trace_back p in
      (Node.state node :: path, Node.action node :: actions)
  end.

Definition reconstruct (self : t) (current_node : Node)
    : list (Z * Z) * list (option string) :=
  let '(path, actions) := trace_back current_node in
  (reverse (path ++ [start self]), reverse actions).

Definition answer : Type := (list (Z * Z) * list (option string)) * gset (Z * Z).

(** One turn of [while frontier]: either the call ends with an outcome, or
    the loop goes on with new locals. *)
Definition turn (self : t) (algorithm : string) (st : locals)
    : result answer + locals :=
  match heapq.heappop Node.lt (frontier st) with
  | None => inl (Raise NoPathError)
  | Some (current_node, frontier') =>
      if bool_decide (Node.state current_node = goal self)
      then inl (Ok (reconstruct self current_node, all_visited st))
      else inr (expand self algorithm current_node
                  (mk_locals frontier' (visited st) (all_visited st) (pushed st)))
  end.

(** [n] turns of the loop at most; [None] when the loop has not ended. *)
Fixpoint loop (n : nat) (self : t) (algorithm : string) (st : locals)
    : option (result answer) :=
  match n with
  | O => None
  | S n' =>
      match turn self algorithm st with
      | inl r => Some r
      | inr st' => loop n' self algorithm st'
      end
  end.

Definition start_node (self : t) : Node :=
  Node.mk (start self) None None 0 (heuristic self (start self)).

Definition init_locals (self : t) : locals :=
  mk_locals (heapq.heappush Node.lt [] (start_node self))
            {[start self := 0]} {[start self]} [start self].

(** [solve] run for at most [n] turns of its loop. *)
Definition solve_within (n : nat) (self : t) (algorithm : string)
    : option (result answer) :=
  if bad_algorithm algorithm then Some (Raise InvalidStrategy)
  else loop n self algorithm (init_locals self).

(** A number of turns that the loop never exceeds on a constructed maze
    (lemma [solve_returns]): twice the square of the cell count, plus two. *)
Definition turns_bound (self : t) : nat :=
  let cells := Z.to_nat (height self * width self) in
  (2 * (cells * cells) + 2)%nat.

Definition solve (self : t) (algorithm : string) : option (result answer) :=
  solve_within (turns_bound self) self algorithm.

End Maze.

Abbreviation Maze := Maze.t.

(** * Specification vocabulary *)

(** ** Heaps *)

(** [heap[i] <= heap[j]] wherever both exist, [key] being the quantity that
    [__lt__] compares. *)
Definition le_at {A : Type} (key : A → Z) (heap : list A) (i j : nat) : Prop :=
  ∀ x y, heap !! i = Some x → heap !! j = Some y → key x ≤ key y.

(** The heap invariant of heapq: [heap[(k-1)//2] <= heap[k]] for all [k > 0]. *)
Definition heap_ok {A : Type} (key : A → Z) (heap : list A) : Prop :=
  ∀ i, (0 < i)%nat → le_at key heap ((i - 1) / 2) i.

(** ** The grid as a graph *)

(** Two cells are adjacent when they differ by one in exactly one coordinate
    (4-connectivity). *)
Definition adjacent (s t : Z * Z) : Prop :=
  Z.abs (s.1 - t.1) + Z.abs (s.2 - t.2) = 1.

(** One move: to an adjacent cell that is in bounds and not a wall. *)
Definition step (g : Maze) (s t : Z * Z) : Prop :=
  adjacent s t ∧ Maze.passable g t.

(** [walk g s t n]: a route of [n] moves from [s] to [t]. *)
Inductive walk (g : Maze) : Z * Z → Z * Z → nat → Prop :=
  | walk_nil s : walk g s s 0
  | walk_cons s m t n : step g s m → walk g m t n → walk g s t (S n).

Definition reachable (g : Maze) (t : Z * Z) : Prop :=
  ∃ n, walk g (Maze.start g) t n.

(** The goal can be reached from the start. *)
Definition solvable (g : Maze) : Prop := reachable g (Maze.goal g).

(** [n] is the least number of moves from the start to the goal. *)
Definition shortest (g : Maze) (n : nat) : Prop :=
  walk g (Maze.start g) (Maze.goal g) n
  ∧ ∀ m, walk g (Maze.start g) (Maze.goal g) m → (n ≤ m)%nat.

(** All cells of the grid, row by row. *)
Definition cells (g : Maze) : list (Z * Z) :=
  i ← seq 0 (Z.to_nat (Maze.height g));
  (λ j, (Z.of_nat i, Z.of_nat j)) <$> seq 0 (Z.to_nat (Maze.width g)).

(** ** Text of a grid *)

(** Some two rows differ in length. *)
Definition ragged (rows : list (list ascii)) : Prop :=
  ∃ r1 r2, r1 ∈ rows ∧ r2 ∈ rows ∧ length r1 ≠ length r2.

(** Number of cells holding the character [c]. *)
Definition count (c : ascii) (rows : list (list ascii)) : nat :=
  length (filter (λ x, x = c) (concat rows)).

(** What construction establishes. *)
Record maze_wf (g : Maze) : Prop := {
  wf_height : Maze.height g = Z.of_nat (length (Maze.maze g));
  wf_width : ∀ r, r ∈ Maze.maze g → Z.of_nat (length r) = Maze.width g;
  wf_start_in : 0 ≤ (Maze.start g).1 < Maze.height g ∧ 0 ≤ (Maze.start g).2 < Maze.width g;
  wf_goal_in : 0 ≤ (Maze.goal g).1 < Maze.height g ∧ 0 ≤ (Maze.goal g).2 < Maze.width g;
  wf_start : Maze.at_ g (Maze.start g) = Some "A"%char;
  wf_goal : Maze.at_ g (Maze.goal g) = Some "B"%char
}.

(** ** Search nodes *)

(** The quantity compared by [Node.__lt__]. *)
Definition fkey (n : Node) : Z := Node.cost n + Node.heuristic n.

(** A node followed by its ancestors, the root last. *)
Fixpoint lineage (n : Node) : list Node :=
  n :: match Node.parent n with
       | None => []
       | Some p => lineage p
       end.

(** A node as [solve] builds them: the root is the start node, and every
    other node was made from its parent by one entry of [neighbors]. *)
Fixpoint node_ok (g : Maze) (n : Node) : Prop :=
  match Node.parent n with
  | None => n = Maze.start_node g
  | Some p =>
      (∃ a, Node.action n = Some a
            ∧ (a, Node.state n) ∈ Maze.neighbors g (Node.state p))
      ∧ Node.cost n = Node.cost p + 1
      ∧ Node.heuristic n = Maze.heuristic g (Node.state n)
      ∧ node_ok g p
  end.

(** A returned path with its actions: it starts at the start, and each
    further state is reached from the one before by the listed action, which
    [neighbors] offers there. *)
Inductive route (g : Maze) : list (Z * Z) → list (option string) → Z * Z → Prop :=
  | route_start : route g [Maze.start g] [] (Maze.start g)
  | route_snoc path actions s a t :
      route g path actions s →
      (a, t) ∈ Maze.neighbors g s →
      route g (path ++ [t]) (actions ++ [Some a]) t.

(** ** The state of the loop of solve *)

(** The locals after [n] whole turns of the loop, when the call has not
    ended before. *)
Fixpoint locals_after (n : nat) (g : Maze) (algorithm : string) : option Maze.locals :=
  match n with
  | O => Some (Maze.init_locals g)
  | S n' =>
      match locals_after n' g algorithm with
      | Some st =>
          match Maze.turn g algorithm st with
          | inr st' => Some st'
          | inl _ => None
          end
      | None => None
      end
  end.

(** A frontier configuration that occurs at the head of the loop. *)
Definition reached (g : Maze) (algorithm : string) (st : Maze.locals) : Prop :=
  ∃ n, locals_after n g algorithm = Some st.

(** The nodes in play: the frontier, and the node being expanded if any. *)
Definition in_play (cur : option Node) (st : Maze.locals) : list Node :=
  match cur with
  | Some m => m :: Maze.frontier st
  | None => Maze.frontier st
  end.

(** The invariant of the loop.  Between turns [cur] is [None]; while a node
    is expanded [cur] is that node and [rest] the entries of [neighbors]
    still to come. *)
Record inv (g : Maze) (cur : option Node) (rest : list (string * (Z * Z)))
    (st : Maze.locals) : Prop := {
  inv_nodes : ∀ n, n ∈ in_play cur st → node_ok g n;
  inv_simple : ∀ n, n ∈ in_play cur st → NoDup (Node.state <$> lineage n);
  inv_bound : ∀ n m, n ∈ in_play cur st → m ∈ lineage n →
    ∃ v, Maze.visited st !! Node.state m = Some v ∧ v ≤ Node.cost m;
  inv_real : ∀ s v, Maze.visited st !! s = Some v →
    ∃ k, v = Z.of_nat k ∧ walk g (Maze.start g) s k;
  inv_start : Maze.visited st !! Maze.start g = Some 0;
  inv_dom : Maze.all_visited st = dom (Maze.visited st);
  inv_log : Maze.all_visited st = list_to_set (Maze.pushed st);
  inv_heap : heap_ok fkey (Maze.frontier st);
  inv_cur : ∀ m, cur = Some m →
    Node.state m ≠ Maze.goal g
    ∧ ∀ x, x ∈ rest → x ∈ Maze.neighbors g (Node.state m);
  inv_complete : ∀ s, s ∈ dom (Maze.visited st) →
    (∃ n, n ∈ Maze.frontier st ∧ Node.state n = s)
    ∨ (s ≠ Maze.goal g
       ∧ ∀ x, x ∈ Maze.neighbors g s → x.2 ∈ dom (Maze.visited st))
    ∨ (∃ m, cur = Some m ∧ Node.state m = s
       ∧ ∀ x, x ∈ Maze.neighbors g s →
           x.2 ∈ dom (Maze.visited st) ∨ x ∈ rest)
}.

(** [s] lies on a shortest route, [j] moves from the start, when the least
    number of moves to the goal is [k]. *)
Definition on_opt (g : Maze) (k : nat) (s : Z * Z) (j : nat) : Prop :=
  (j ≤ k)%nat ∧ walk g (Maze.start g) s j ∧ walk g s (Maze.goal g) (k - j).

(** The invariant behind optimality: a cell of a shortest route that was
    recorded with its true distance either waits in the frontier with that
    cost, or has passed it on to its successors on shortest routes, or is
    being expanded. *)
Definition opt_inv (g : Maze) (k : nat) (cur : option Node)
    (rest : list (string * (Z * Z))) (st : Maze.locals) : Prop :=
  ∀ s j, on_opt g k s j → Maze.visited st !! s = Some (Z.of_nat j) →
    (∃ n, n ∈ Maze.frontier st ∧ Node.state n = s ∧ Node.cost n = Z.of_nat j)
    ∨ (s ≠ Maze.goal g
       ∧ ∀ x, x ∈ Maze.neighbors g s → on_opt g k x.2 (S j) →
           Maze.visited st !! x.2 = Some (Z.of_nat (S j)))
    ∨ (∃ m, cur = Some m ∧ Node.state m = s ∧ Node.cost m = Z.of_nat j
       ∧ ∀ x, x ∈ Maze.neighbors g s → on_opt g k x.2 (S j) →
           Maze.visited st !! x.2 = Some (Z.of_nat (S j)) ∨ x ∈ rest).

(** ** The measure that bounds the number of turns *)

(** What a cell can still lose: its recorded cost, or the cell count when it
    has none. *)
Definition potential (g : Maze) (visited : gmap (Z * Z) Z) (c : Z * Z) : nat :=
  match visited !! c with
  | Some v => Z.to_nat v
  | None => length (cells g)
  end.

Definition measure (g : Maze) (st : Maze.locals) : nat :=
  (2 * sum_list_with (potential g (Maze.visited st)) (cells g)
   + length (Maze.frontier st))%nat.

(** ** The marker scan of __init__ *)

(** What the pair [(start, goal)] of the scan holds once the cells [seen]
    have been read: a recorded position is a seen cell with the marker, and
    nothing recorded means no seen cell has it. *)
Definition scan_inv (rows : list (list ascii)) (seen : nat → nat → Prop)
    (sg : option (Z * Z) * option (Z * Z)) : Prop :=
  (∀ p, sg.1 = Some p →
     ∃ i j, p = (Z.of_nat i, Z.of_nat j) ∧ seen i j
            ∧ Maze.at_nat rows i j = Some "A"%char)
  ∧ (sg.1 = None → ∀ i j, seen i j → Maze.at_nat rows i j ≠ Some "A"%char)
  ∧ (∀ p, sg.2 = Some p →
       ∃ i j, p = (Z.of_nat i, Z.of_nat j) ∧ seen i j
              ∧ Maze.at_nat rows i j = Some "B"%char)
  ∧ (sg.2 = None → ∀ i j, seen i j → Maze.at_nat rows i j ≠ Some "B"%char).

(** ** Selecting the strategy *)

(** The call gets past the selector test: it ends with an outcome other than
    [InvalidStrategy]. *)
Definition accepts (g : Maze) (algorithm : string) : Prop :=
  ∃ r, Maze.solve g algorithm = Some r ∧ r ≠ Raise InvalidStrategy.

(** ** Example inputs *)

(** The maze of the notebook. *)
Definition notebook_maze : string :=
  "##########
#A     # #
# ### #  #
# #   ## #
# # #    #
# ### ####
#     #B #
##########".

(** Three by three, one wall in the middle. *)
Definition ring_maze : string :=
  "A..
.#.
..B".

(** The start above a wall, the goal below it. *)
Definition detour_maze : string :=
  ".A.
.#.
.B.".

Definition two_starts : string := "AAB".

Definition grid_of (maze_str : string) : Maze :=
  match Maze.init maze_str with
  | Ok g => g
  | Raise _ => Maze.mk [] 0 0 (0, 0) (0, 0)
  end.

Definition ring_grid : Maze := Eval vm_compute in grid_of ring_maze.
Definition notebook_grid : Maze := Eval vm_compute in grid_of notebook_maze.
Definition detour_grid : Maze := Eval vm_compute in grid_of detour_maze.

(** What solve returns on [ring_grid] with the selector a*. *)
Definition ring_answer : Maze.answer :=
  ([(0, 0); (0, 1); (0, 2); (1, 2); (2, 2)],
   [Some "right"; Some "right"; Some "down"; Some "down"]%string,
   list_to_set [(0, 0); (0, 1); (1, 0); (0, 2); (2, 0); (1, 2); (2, 1); (2, 2)]).

(** ** More vocabulary for the construction *)

(** Row-major order on positions: [p] is read no later than [q]. *)
Definition row_major_le (p q : Z * Z) : Prop :=
  p.1 < q.1 ∨ (p.1 = q.1 ∧ p.2 ≤ q.2).

(** Once the cells [seen] have been read, every seen cell with the marker
    [c] stands no later than the position recorded for [c]. *)
Definition scan_last (rows : list (list ascii)) (seen : nat → nat → Prop)
    (c : ascii) (recorded : option (Z * Z)) : Prop :=
  ∀ i j, seen i j → Maze.at_nat rows i j = Some c →
    ∃ p, recorded = Some p ∧ row_major_le (Z.of_nat i, Z.of_nat j) p.

(** Every character of the text is white space. *)
Definition all_space (s : string) : Prop :=
  ∀ c, c ∈ list_ascii_of_string s → Py.isspace c = true.


(** ** A run with a stale frontier entry *)

(** Four by four, no wall: the start and the goal in opposite corners. *)
Definition open_maze : string :=
  "A...
....
....
...B".

Definition open_grid : Maze := Eval vm_compute in grid_of open_maze.

(** State, cost and heuristic of the nodes of the frontier, in heap order. *)
Definition frontier_keys (st : Maze.locals) : list ((Z * Z) * Z * Z) :=
  map (λ n, (Node.state n, Node.cost n, Node.heuristic n)) (Maze.frontier st).

(** The locals at the head of the loop after fourteen turns on [open_grid].
    The frontier holds three nodes: the goal, and the corner (3, 0) twice,
    pushed at cost 5 from (3, 1) and then again at cost 3 from (2, 0). *)
Definition open_locals : Maze.locals :=
  default (Maze.init_locals open_grid) (locals_after 14 open_grid "a*").

(** ** The gridworld of the Q-learning notebook

    The environment of [gridworld_qlearning]: the module-level tables and the
    function [step].  A Python dict is an association list in insertion
    order, the order in which [items()] yields it.  The learning loop draws
    random numbers and updates floats; it is not part of this model. *)

Module Gridworld.

Definition grid_size : Z * Z := (5, 5).

Definition special_states : list (string * (Z * Z)) :=
  [("A", (0, 1)); ("B", (0, 3))]%string.

Definition next_states : list (string * (Z * Z)) :=
  [("A", (4, 1)); ("B", (2, 3))]%string.

Definition special_rewards : list (string * Z) :=
  [("A", 10); ("B", 5)]%string.

Definition action_vectors : list (string * (Z * Z)) :=
  [("north", (-1, 0)); ("south", (1, 0)); ("east", (0, 1)); ("west", (0, -1))]%string.

(** [d[key]]; [None] is the [KeyError]. *)
Fixpoint get {V : Type} (d : list (string * V)) (key : string) : option V :=
  match d with
  | [] => None
  | (k, v) :: d' => if String.eqb k key then Some v else get d' key
  end.

(** The loop [for key, val in special_states.items()] of [step]: [Some r]
    when it returns [r] (itself [None] on a [KeyError]), [None] when it runs
    to its end. *)
Fixpoint teleport (items : list (string * (Z * Z))) (state : Z * Z)
    : option (option ((Z * Z) * Z)) :=
  match items with
  | [] => None
  | (key, val) :: items' =>
      if bool_decide (state = val) then
        Some (match get next_states key, get special_rewards key with
              | Some next, Some reward => Some (next, reward)
              | _, _ => None
              end)
      else teleport items' state
  end.

(** [step(state, action)]: the next state and the reward; [None] is the
    [KeyError] of an unknown action. *)
Definition step (state : Z * Z) (action : string) : option ((Z * Z) * Z) :=
  match teleport special_states state with
  | Some r => r
  | None =>
      let '(i, j) := state in
      match get action_vectors action with
      | None => None
      | Some (di, dj) =>
          let ni := i + di in
          let nj := j + dj in
          if bool_decide (0 ≤ ni < grid_size.1) && bool_decide (0 ≤ nj < grid_size.2)
          then Some ((ni, nj), 0)
          else Some (state, -1)
      end
  end.

(** A cell of the five by five grid. *)
Definition in_grid (s : Z * Z) : Prop :=
  0 ≤ s.1 < grid_size.1 ∧ 0 ≤ s.2 < grid_size.2.

End Gridworld.

(** * Facts about the heap *)

(** ** Index arithmetic of the implicit binary tree *)

Lemma parent_lt (i : nat) : (0 < i)%nat → ((i - 1) / 2 < i)%nat.
Proof.
  intros Hi. apply Nat.Div0.div_lt_upper_bound. lia.
Qed.

Lemma parent_children (i : nat) :
  (0 < i)%nat → (i = 2 * ((i - 1) / 2) + 1 ∨ i = 2 * ((i - 1) / 2) + 2)%nat.
Proof.
  intros Hi.
  pose proof (Nat.div_mod_eq (i - 1) 2) as E.
  pose proof (Nat.mod_upper_bound (i - 1) 2) as B.
  lia.
Qed.

Lemma parent_of_left (p : nat) : ((2 * p + 1 - 1) / 2 = p)%nat.
Proof.
  replace (2 * p + 1 - 1)%nat with (p * 2)%nat by lia. apply Nat.div_mul. lia.
Qed.

Lemma parent_of_right (p : nat) : ((2 * p + 2 - 1) / 2 = p)%nat.
Proof.
  replace (2 * p + 2 - 1)%nat with (1 + p * 2)%nat by lia.
  rewrite Nat.div_add by lia. reflexivity.
Qed.

(** ** Contents: push and pop keep the elements *)

Section heap_contents.
Context {A : Type} (lt : A → A → bool).

Lemma insert_delete_perm (l : list A) (i : nat) (x : A) :
  (i < length l)%nat → <[i:=x]> l ≡ₚ x :: delete i l.
Proof.
  revert i. induction l as [|a l IH]; intros [|i] Hi; simpl in *; try lia.
  - reflexivity.
  - rewrite (IH i) by lia. apply Permutation_swap.
Qed.

Lemma lookup_delete_perm (l : list A) (i : nat) (x : A) :
  l !! i = Some x → l ≡ₚ x :: delete i l.
Proof.
  revert i. induction l as [|a l IH]; intros [|i] Hi; simpl in *; try done.
  - by inversion Hi.
  - rewrite (IH i Hi) at 1. apply Permutation_swap.
Qed.

(** Moving [l[j]] to slot [i] and putting [x] in slot [j] holds the same
    elements as putting [x] in slot [i]. *)
Lemma insert_move_perm (l : list A) (i j : nat) (x y : A) :
  i ≠ j → (i < length l)%nat → l !! j = Some y →
  <[j:=x]> (<[i:=y]> l) ≡ₚ <[i:=x]> l.
Proof.
  revert i j. induction l as [|a l IH]; intros i j Hij Hi Hj; simpl in *; [lia|].
  destruct i as [|i], j as [|j]; simpl in *; try done.
  - rewrite (insert_delete_perm l j x) by (by eapply lookup_lt_Some).
    rewrite (lookup_delete_perm l j y Hj) at 2. apply Permutation_swap.
  - inversion Hj; subst a.
    rewrite !insert_delete_perm by lia. apply Permutation_swap.
  - rewrite IH; [done|lia|lia|done].
Qed.

Lemma siftdown_loop_perm (fuel : nat) (heap : list A) (newitem : A) (pos : nat) :
  (pos < length heap)%nat →
  heapq.siftdown_loop lt fuel heap newitem 0 pos ≡ₚ <[pos:=newitem]> heap.
Proof.
  revert heap pos. induction fuel as [|fuel IH]; intros heap pos Hpos;
    cbn [heapq.siftdown_loop]; [done|].
  case_bool_decide as Hp; [|done].
  destruct (heap !! ((pos - 1) / 2)%nat) as [parent|] eqn:Hpar; [|done].
  destruct (lt newitem parent); [|done].
  pose proof (parent_lt pos Hp) as Hlt.
  rewrite IH by (rewrite length_insert; lia).
  apply insert_move_perm; [lia|done|done].
Qed.

Lemma siftdown_perm (heap : list A) (pos : nat) :
  heapq.siftdown lt heap 0 pos ≡ₚ heap.
Proof.
  unfold heapq.siftdown. destruct (heap !! pos) as [newitem|] eqn:E; [|done].
  rewrite siftdown_loop_perm by (by eapply lookup_lt_Some).
  by rewrite list_insert_id.
Qed.

Lemma heappush_perm (heap : list A) (item : A) :
  heapq.heappush lt heap item ≡ₚ item :: heap.
Proof.
  unfold heapq.heappush. rewrite siftdown_perm.
  by rewrite Permutation_app_comm.
Qed.

(** While the hole goes down, the list with the hole filled by [newitem]
    keeps its elements. *)
Lemma siftup_loop_perm (fuel : nat) (heap : list A) (pos : nat) (newitem : A)
    (heap1 : list A) (leaf : nat) :
  (pos < length heap)%nat →
  heapq.siftup_loop lt fuel heap pos = (heap1, leaf) →
  <[leaf:=newitem]> heap1 ≡ₚ <[pos:=newitem]> heap ∧ (leaf < length heap1)%nat.
Proof.
  revert heap pos. induction fuel as [|fuel IH]; intros heap pos Hpos;
    cbn [heapq.siftup_loop].
  { intros [= <- <-]. done. }
  case_bool_decide as Hc; [|by intros [= <- <-]].
  destruct (_ && _)%bool;
    (destruct (heap !! _) as [c|] eqn:Hcp; [|by intros [= <- <-]]);
    intros Hrun; apply IH in Hrun as [Hperm Hleaf];
    try (rewrite length_insert; by eapply lookup_lt_Some);
    (split; [|done]); rewrite Hperm;
    (apply insert_move_perm; [lia|done|done]).
Qed.

Lemma siftup_perm (heap : list A) : heapq.siftup lt heap 0 ≡ₚ heap.
Proof.
  unfold heapq.siftup. destruct (heap !! 0%nat) as [newitem|] eqn:E; [|done].
  destruct (heapq.siftup_loop lt (length heap) heap 0) as [heap1 leaf] eqn:Hrun.
  apply (siftup_loop_perm _ _ _ newitem) in Hrun as [Hperm _].
  2:{ by eapply lookup_lt_Some. }
  rewrite siftdown_perm, Hperm. by rewrite list_insert_id.
Qed.

Lemma heappop_snoc (l : list A) (x : A) :
  heapq.heappop lt (l ++ [x]) =
  match l with
  | [] => Some (x, [])
  | r :: _ => Some (r, heapq.siftup lt (<[0%nat:=x]> l) 0)
  end.
Proof.
  unfold heapq.heappop. rewrite reverse_snoc, reverse_involutive. done.
Qed.

Lemma heappop_nil : heapq.heappop lt [] = None.
Proof. done. Qed.

Lemma heappop_Some (heap : list A) :
  heap ≠ [] → ∃ x heap', heapq.heappop lt heap = Some (x, heap').
Proof.
  intros Hne. destruct heap as [|a l _] using rev_ind; [done|].
  rewrite heappop_snoc. destruct l; eauto.
Qed.

Lemma heappop_perm (heap heap' : list A) (x : A) :
  heapq.heappop lt heap = Some (x, heap') → heap ≡ₚ x :: heap'.
Proof.
  destruct heap as [|a l _] using rev_ind; [done|].
  rewrite heappop_snoc. destruct l as [|r l].
  - by intros [= <- <-].
  - intros [= <- <-]. rewrite siftup_perm. simpl.
    by rewrite <- Permutation_cons_append.
Qed.

End heap_contents.

(** ** Order: the first element is a least one *)

Section heap_order.
Context {A : Type} (lt : A → A → bool) (key : A → Z).
Hypothesis lt_key : ∀ a b, lt a b = (key a <? key b).

Local Abbreviation up i := ((i - 1) / 2)%nat.

Lemma heap_ok_nil : heap_ok key [].
Proof. intros i _ x y Hx. done. Qed.

Lemma heap_ok_head (heap : list A) (x0 : A) :
  heap_ok key heap → heap !! 0%nat = Some x0 → ∀ x, x ∈ heap → key x0 ≤ key x.
Proof.
  intros Hok H0 x [i Hi]%list_elem_of_lookup_1. revert x Hi.
  induction (lt_wf i) as [i _ IH]. intros x Hi.
  destruct (decide (i = 0%nat)) as [->|Hne].
  { rewrite H0 in Hi. inversion Hi. lia. }
  pose proof (parent_lt i ltac:(lia)) as Hlt.
  destruct (lookup_lt_is_Some_2 heap (up i)) as [p Hp].
  { apply lookup_lt_Some in Hi. lia. }
  pose proof (IH _ Hlt p Hp). pose proof (Hok i ltac:(lia) p x Hp Hi). lia.
Qed.

(** Filling the hole at [pos] with [newitem] gives a heap when only the
    pairs around the hole were open. *)
Lemma fill_ok (heap : list A) (newitem : A) (pos : nat) :
  (∀ i, (0 < i)%nat → i ≠ pos → up i ≠ pos → le_at key heap (up i) i) →
  (∀ c y, (0 < c)%nat → up c = pos → heap !! c = Some y → key newitem ≤ key y) →
  (∀ p, (0 < pos)%nat → heap !! up pos = Some p → key p ≤ key newitem) →
  heap_ok key (<[pos:=newitem]> heap).
Proof.
  intros Ha Hc Hp i Hi x y Hx Hy.
  apply list_lookup_insert_Some in Hx, Hy.
  pose proof (parent_lt i Hi).
  destruct Hx as [(Ex & <- & _)|[Nx Hx]], Hy as [(Ey & <- & _)|[Ny Hy]]; try lia.
  - eapply Hc; eauto.
  - subst i. eapply Hp; eauto; lia.
  - eapply Ha; eauto.
Qed.

Lemma siftdown_loop_ok (fuel : nat) (heap : list A) (newitem : A) (pos : nat) :
  (pos ≤ fuel)%nat → (pos < length heap)%nat →
  (∀ i, (0 < i)%nat → i ≠ pos → le_at key heap (up i) i) →
  (∀ c, (0 < pos)%nat → (0 < c)%nat → up c = pos → le_at key heap (up pos) c) →
  (∀ c y, (0 < c)%nat → up c = pos → heap !! c = Some y → key newitem ≤ key y) →
  heap_ok key (heapq.siftdown_loop lt fuel heap newitem 0 pos).
Proof.
  revert heap pos. induction fuel as [|fuel IH]; intros heap pos Hfuel Hpos Ha Hb Hc;
    cbn [heapq.siftdown_loop].
  { apply fill_ok; [auto|auto|]. intros; lia. }
  case_bool_decide as Hp.
  2:{ apply fill_ok; [auto|auto|]. intros; lia. }
  pose proof (parent_lt pos Hp) as Hlt.
  destruct (heap !! up pos) as [parent|] eqn:Hpar.
  2:{ apply fill_ok; [auto|auto|]. intros; congruence. }
  rewrite lt_key. destruct (Z.ltb_spec (key newitem) (key parent)) as [Hless|Hge].
  2:{ apply fill_ok; [auto|auto|]. intros p _ Hp'. assert (p = parent) as -> by congruence. lia. }
  apply IH; [lia|rewrite length_insert; lia|..].
  - intros i Hi Hne x y Hx Hy.
    apply list_lookup_insert_Some in Hx, Hy.
    pose proof (parent_lt i Hi).
    destruct Hx as [(Ex & <- & _)|[Nx Hx]], Hy as [(Ey & <- & _)|[Ny Hy]]; try lia.
    + eapply (Hb i); eauto.
    + subst i. assert (x = parent) as -> by congruence. lia.
    + eapply Ha; eauto.
  - intros c Hpp Hc0 Hcp x y Hx Hy.
    rewrite list_lookup_insert_ne in Hx by (pose proof (parent_lt (up pos) Hpp); lia).
    apply list_lookup_insert_Some in Hy.
    destruct Hy as [(Ey & Epy & _)|[Ny Hy]].
    + subst y. eapply (Ha (up pos)); eauto. lia.
    + destruct (lookup_lt_is_Some_2 heap (up pos)) as [m Hm]; [lia|].
      pose proof (Ha (up pos) Hpp ltac:(lia) x m Hx Hm).
      pose proof (Ha c Hc0 ltac:(lia) m y ltac:(by rewrite Hcp) Hy). lia.
  - intros c y Hc0 Hcp Hy.
    apply list_lookup_insert_Some in Hy.
    destruct Hy as [(Ey & Epy & _)|[Ny Hy]]; [subst y; lia|].
    pose proof (Ha c Hc0 ltac:(lia) parent y ltac:(by rewrite Hcp) Hy). lia.
Qed.

Lemma heappush_ok (heap : list A) (item : A) :
  heap_ok key heap → heap_ok key (heapq.heappush lt heap item).
Proof.
  intros Hok. unfold heapq.heappush, heapq.siftdown.
  rewrite length_app, Nat.add_sub. simpl.
  rewrite list_lookup_middle by done.
  apply siftdown_loop_ok; [lia|rewrite length_app; simpl; lia|..].
  - intros i Hi Hne x y Hx Hy.
    pose proof (parent_lt i Hi).
    assert (i < length heap)%nat.
    { apply lookup_lt_Some in Hy. rewrite length_app in Hy. simpl in Hy. lia. }
    rewrite lookup_app_l in Hx, Hy by lia. eapply Hok; eauto.
  - intros c _ Hc0 Hcp x y _ Hy.
    pose proof (parent_lt c Hc0).
    apply lookup_lt_Some in Hy. rewrite length_app in Hy. simpl in Hy. lia.
  - intros c y Hc0 Hcp Hy.
    pose proof (parent_lt c Hc0).
    apply lookup_lt_Some in Hy. rewrite length_app in Hy. simpl in Hy. lia.
Qed.

Lemma siftup_loop_ok (fuel : nat) (heap : list A) (pos : nat)
    (heap1 : list A) (leaf : nat) :
  (length heap ≤ fuel + pos)%nat → (pos < length heap)%nat →
  (∀ i, (0 < i)%nat → i ≠ pos → up i ≠ pos → le_at key heap (up i) i) →
  (∀ c, (0 < pos)%nat → (0 < c)%nat → up c = pos → le_at key heap (up pos) c) →
  heapq.siftup_loop lt fuel heap pos = (heap1, leaf) →
  (∀ i, (0 < i)%nat → i ≠ leaf → up i ≠ leaf → le_at key heap1 (up i) i)
  ∧ (∀ c, (0 < leaf)%nat → (0 < c)%nat → up c = leaf → le_at key heap1 (up leaf) c)
  ∧ (leaf < length heap1)%nat ∧ (length heap1 ≤ 2 * leaf + 1)%nat.
Proof.
  revert heap pos. induction fuel as [|fuel IH]; intros heap pos Hfuel Hpos Ha Hb;
    cbn [heapq.siftup_loop]; [lia|].
  case_bool_decide as Hchild.
  2:{ intros [= <- <-]. split_and!; [done|done|done|lia]. }
  set (left := (2 * pos + 1)%nat) in *.
  (* the chosen child [cp] and its sibling [sib] *)
  assert (∃ cp sib c,
    (if bool_decide (left + 1 < length heap)%nat && negb (heapq.lt_at lt heap left (left + 1))
     then (left + 1)%nat else left) = cp
    ∧ (cp = left ∧ sib = (left + 1)%nat ∨ cp = (left + 1)%nat ∧ sib = left)
    ∧ heap !! cp = Some c
    ∧ ∀ y, heap !! sib = Some y → key c ≤ key y) as (cp & sib & c & -> & Hcs & Hcp & Hmin).
  { destruct (lookup_lt_is_Some_2 heap left Hchild) as [a Hl].
    case_bool_decide as Hr; simpl.
    - destruct (lookup_lt_is_Some_2 heap (left + 1) Hr) as [b Hright].
      unfold heapq.lt_at. rewrite Hl, Hright, lt_key.
      destruct (Z.ltb_spec (key a) (key b)); simpl.
      + exists left, (left + 1)%nat, a. split_and!; [done|by left|done|].
        intros y Hy. assert (y = b) as -> by congruence. lia.
      + exists (left + 1)%nat, left, b. split_and!; [done|by right|done|].
        intros y Hy. assert (y = a) as -> by congruence. lia.
    - exists left, (left + 1)%nat, a. split_and!; [done|by left|done|].
      intros y Hy%lookup_lt_Some. lia. }
  rewrite Hcp. intros Hrun.
  assert (Hup_cp : up cp = pos).
  { destruct Hcs as [[-> _] | [-> _]]; subst left;
      [apply parent_of_left|rewrite <- Nat.add_assoc; apply parent_of_right]. }
  assert (Hkids : ∀ i, (0 < i)%nat → up i = pos → i = cp ∨ i = sib).
  { intros i Hi Hu. pose proof (parent_children i Hi). subst left. lia. }
  assert (Hcp_lt : (cp < length heap)%nat) by (by eapply lookup_lt_Some).
  assert (Hpos_cp : (pos < cp)%nat) by (subst left; lia).
  apply IH in Hrun; [done|rewrite length_insert; lia|rewrite length_insert; lia|..].
  - intros i Hi Hne Hune x y Hx Hy.
    apply list_lookup_insert_Some in Hx, Hy.
    pose proof (parent_lt i Hi).
    destruct Hx as [(Ex & Ecx & _)|[Nx Hx]], Hy as [(Ey & Ecy & _)|[Ny Hy]]; try lia.
    + subst x. destruct (Hkids i Hi ltac:(done)) as [-> | ->]; [done|]. by apply Hmin.
    + subst y i. eapply (Hb cp); eauto; lia.
    + eapply Ha; eauto.
  - intros c' _ Hc0 Hu x y Hx Hy.
    rewrite Hup_cp in Hx.
    rewrite list_lookup_insert_eq in Hx by lia.
    pose proof (parent_lt c' Hc0).
    rewrite list_lookup_insert_ne in Hy by lia.
    assert (x = c) as -> by congruence.
    eapply (Ha c'); eauto; try lia. by rewrite Hu.
Qed.

Lemma siftup_ok (heap : list A) :
  (∀ i, (0 < i)%nat → up i ≠ 0%nat → le_at key heap (up i) i) →
  heap_ok key (heapq.siftup lt heap 0).
Proof.
  intros Ha. unfold heapq.siftup.
  destruct (heap !! 0%nat) as [newitem|] eqn:H0.
  2:{ apply lookup_ge_None_1 in H0. destruct heap; [apply heap_ok_nil|simpl in H0; lia]. }
  destruct (heapq.siftup_loop lt (length heap) heap 0) as [heap1 leaf] eqn:Hrun.
  apply siftup_loop_ok in Hrun as (Ha1 & Hb1 & Hleaf & Hend);
    [|lia|by eapply lookup_lt_Some|by auto|lia].
  unfold heapq.siftdown. rewrite list_lookup_insert_eq by done.
  assert (Hout : ∀ c, (0 < c)%nat → up c = leaf → (length heap1 ≤ c)%nat).
  { intros c Hc Hu. pose proof (parent_children c Hc). lia. }
  apply siftdown_loop_ok; [lia|by rewrite length_insert|..].
  - intros i Hi Hne x y Hx Hy.
    assert (up i ≠ leaf).
    { intros Hu. apply lookup_lt_Some in Hy. rewrite length_insert in Hy.
      pose proof (Hout i Hi Hu). lia. }
    rewrite list_lookup_insert_ne in Hx, Hy by done. eapply Ha1; eauto.
  - intros c _ Hc Hu x y _ Hy.
    apply lookup_lt_Some in Hy. rewrite length_insert in Hy.
    pose proof (Hout c Hc Hu). lia.
  - intros c y Hc Hu Hy.
    apply lookup_lt_Some in Hy. rewrite length_insert in Hy.
    pose proof (Hout c Hc Hu). lia.
Qed.

Lemma heappop_ok (heap heap' : list A) (x : A) :
  heap_ok key heap → heapq.heappop lt heap = Some (x, heap') →
  heap_ok key heap' ∧ ∀ y, y ∈ heap → key x ≤ key y.
Proof.
  intros Hok. destruct heap as [|a l _] using rev_ind; [done|].
  rewrite heappop_snoc. destruct l as [|r l].
  - intros [= <- <-]. split; [apply heap_ok_nil|].
    intros y ->%list_elem_of_singleton. lia.
  - intros [= <- <-]. split; [|by apply (heap_ok_head _ r Hok)].
    apply siftup_ok. intros i Hi Hu x y Hx Hy.
    apply (Hok i Hi x y).
    + destruct (up i) as [|j]; [done|]. by apply (lookup_app_l_Some (r :: l)).
    + destruct i as [|i]; [lia|]. by apply (lookup_app_l_Some (r :: l)).
Qed.

End heap_order.

(** * Construction of a Maze *)

Lemma shape_Some (rows : list (list ascii)) (h w : nat) :
  Maze.shape rows = Some (h, w) →
  rows ≠ [] ∧ h = length rows ∧ ∀ r, r ∈ rows → length r = w.
Proof.
  unfold Maze.shape. destruct rows as [|r rs]; [done|].
  destruct (forallb _ rs) eqn:Hall; [|done].
  intros [= <- <-]. split_and!; [done|done|].
  intros r' [->|Hin]%elem_of_cons; [done|].
  rewrite forallb_forall in Hall.
  apply Nat.eqb_eq, Hall. by apply list_elem_of_In.
Qed.

Lemma shape_None (rows : list (list ascii)) :
  Maze.shape rows = None ↔ rows = [] ∨ ragged rows.
Proof.
  unfold Maze.shape. destruct rows as [|r rs]; [split; auto|].
  destruct (forallb _ rs) eqn:Hall.
  - split; [done|]. intros [?|(r1 & r2 & H1 & H2 & Hne)]; [done|].
    rewrite forallb_forall in Hall.
    assert (∀ x, x ∈ r :: rs → length x = length r) as Hlen.
    { intros x [->|Hin]%elem_of_cons; [done|].
      apply Nat.eqb_eq, Hall. by apply list_elem_of_In. }
    rewrite (Hlen r1), (Hlen r2) in Hne; done.
  - split; [|done]. intros _. right.
    induction rs as [|r' rs IH]; [done|]. simpl in Hall.
    destruct (Nat.eqb_spec (length r') (length r)) as [Heq|Hne]; simpl in Hall.
    + destruct (IH Hall) as (r1 & r2 & H1 & H2 & Hne).
      exists r1, r2. split_and!; [|  |done].
      * apply elem_of_cons in H1 as [->|H1]; [left|right; by right].
      * apply elem_of_cons in H2 as [->|H2]; [left|right; by right].
    + exists r', r. split_and!; [right; left|left|done].
Qed.

(** ** The scan for 'A' and 'B' *)

Lemma scan_inv_ext (rows : list (list ascii)) (seen seen' : nat → nat → Prop) sg :
  (∀ i j, seen i j ↔ seen' i j) → scan_inv rows seen sg → scan_inv rows seen' sg.
Proof.
  intros Hext (HA & HnA & HB & HnB). split_and!.
  - intros p Hp. destruct (HA p Hp) as (i & j & ? & ? & ?). exists i, j. by rewrite <- Hext.
  - intros Hn i j Hs. apply HnA; [done|]. by apply Hext.
  - intros p Hp. destruct (HB p Hp) as (i & j & ? & ? & ?). exists i, j. by rewrite <- Hext.
  - intros Hn i j Hs. apply HnB; [done|]. by apply Hext.
Qed.

Lemma scan_cell_inv (rows : list (list ascii)) (seen : nat → nat → Prop) (i j : nat) sg :
  scan_inv rows seen sg →
  scan_inv rows (λ i' j', seen i' j' ∨ (i' = i ∧ j' = j)) (Maze.scan_cell rows i j sg).
Proof.
  intros (HA & HnA & HB & HnB). unfold Maze.scan_cell.
  case_bool_decide as EA; [|case_bool_decide as EB]; simpl; split_and!; simpl.
  - intros p [= <-]. exists i, j. auto.
  - done.
  - intros p Hp. destruct (HB p Hp) as (i' & j' & ? & ? & ?). exists i', j'. auto.
  - intros Hn i' j' [Hs|[-> ->]]; [by apply HnB|]. by rewrite EA.
  - intros p Hp. destruct (HA p Hp) as (i' & j' & ? & ? & ?). exists i', j'. auto.
  - intros Hn i' j' [Hs|[-> ->]]; [by apply HnA|done].
  - intros p [= <-]. exists i, j. auto.
  - done.
  - intros p Hp. destruct (HA p Hp) as (i' & j' & ? & ? & ?). exists i', j'. auto.
  - intros Hn i' j' [Hs|[-> ->]]; [by apply HnA|done].
  - intros p Hp. destruct (HB p Hp) as (i' & j' & ? & ? & ?). exists i', j'. auto.
  - intros Hn i' j' [Hs|[-> ->]]; [by apply HnB|done].
Qed.

Lemma scan_row_inv (rows : list (list ascii)) (seen : nat → nat → Prop) (w i : nat) sg :
  scan_inv rows seen sg →
  scan_inv rows (λ i' j', seen i' j' ∨ (i' = i ∧ (j' < w)%nat)) (Maze.scan_row rows w sg i).
Proof.
  unfold Maze.scan_row, Py.range. revert sg. induction w as [|w IH]; intros sg Hinv.
  - simpl. eapply scan_inv_ext; [|done]. intros i' j'. split; [auto|]. intros [?|[_ ?]]; [done|lia].
  - rewrite seq_S, fold_left_app. simpl.
    eapply scan_inv_ext; [|apply scan_cell_inv, IH, Hinv].
    intros i' j'. simpl. split.
    + intros [[?|[? ?]]|[? ?]]; [auto|right; split; [done|lia]..].
    + intros [?|[? ?]]; [auto|]. destruct (decide (j' = w)); [auto|left; right; split; [done|lia]].
Qed.

Lemma scan_spec (rows : list (list ascii)) (h w : nat) :
  scan_inv rows (λ i j, (i < h)%nat ∧ (j < w)%nat) (Maze.scan rows h w).
Proof.
  unfold Maze.scan, Py.range. induction h as [|h IH].
  - simpl. split_and!; try done; intros _ i j [? _]; lia.
  - rewrite seq_S, fold_left_app. simpl.
    eapply scan_inv_ext; [|apply scan_row_inv, IH].
    intros i j. simpl. split.
    + intros [[? ?]|[? ?]]; split; (done || lia).
    + intros [? ?]. destruct (decide (i = h)); [right; done|left; split; [lia|done]].
Qed.

(** ** Cells of a rectangular matrix *)

Lemma at_nat_Some (rows : list (list ascii)) (i j : nat) (c : ascii) :
  Maze.at_nat rows i j = Some c ↔ ∃ r, rows !! i = Some r ∧ r !! j = Some c.
Proof.
  unfold Maze.at_nat. destruct (rows !! i) as [r|]; simpl;
    [|split; [done|by intros (? & ? & ?)]].
  split; [eauto|]. by intros (r' & [= <-] & ?).
Qed.

Lemma at_nat_concat (rows : list (list ascii)) (c : ascii) :
  c ∈ concat rows ↔ ∃ i j, Maze.at_nat rows i j = Some c.
Proof.
  setoid_rewrite at_nat_Some. rewrite list_elem_of_In, in_concat.
  setoid_rewrite <- list_elem_of_In. split.
  - intros (r & Hr & Hc).
    apply list_elem_of_lookup in Hr as [i Hi], Hc as [j Hj]. eauto.
  - intros (i & j & r & Hi & Hj). exists r.
    split; eapply list_elem_of_lookup_2; eauto.
Qed.

Lemma count_0 (c : ascii) (rows : list (list ascii)) :
  count c rows = 0%nat ↔ c ∉ concat rows.
Proof.
  unfold count. rewrite length_zero_iff_nil. split.
  - intros Hnil Hin.
    assert (c ∈ filter (λ x, x = c) (concat rows)) as Hc by (by apply list_elem_of_filter).
    rewrite Hnil in Hc. by apply not_elem_of_nil in Hc.
  - intros Hn. apply elem_of_nil_inv. intros x [-> ?]%list_elem_of_filter. done.
Qed.

Lemma at_nat_in_shape (rows : list (list ascii)) (h w i j : nat) (c : ascii) :
  Maze.shape rows = Some (h, w) → Maze.at_nat rows i j = Some c →
  (i < h)%nat ∧ (j < w)%nat.
Proof.
  intros (_ & -> & Hw)%shape_Some (r & Hi & Hj)%at_nat_Some.
  split; [by eapply lookup_lt_Some|].
  rewrite <- (Hw r) by (by eapply list_elem_of_lookup_2).
  by eapply lookup_lt_Some.
Qed.

(** ** What __init__ returns *)

Lemma init_Ok (maze_str : string) (g : Maze) :
  Maze.init maze_str = Ok g → maze_wf g ∧ Maze.maze g = Maze.rows_of maze_str.
Proof.
  unfold Maze.init. destruct (Maze.shape _) as [[h w]|] eqn:Hshape; [|done].
  pose proof (scan_spec (Maze.rows_of maze_str) h w) as (HA & _ & HB & _).
  destruct (Maze.scan _ h w) as [[s|] [t|]]; try done.
  intros [= <-]. split; [|done].
  destruct (HA s eq_refl) as (i & j & -> & [Hi Hj] & HcA).
  destruct (HB t eq_refl) as (i' & j' & -> & [Hi' Hj'] & HcB).
  apply shape_Some in Hshape as (_ & -> & Hw).
  split; simpl; unfold Maze.at_; simpl; rewrite ?Nat2Z.id; try done; try lia.
  intros r Hr. by rewrite (Hw r Hr).
Qed.

Lemma init_Raise (maze_str : string) :
  (∃ e, Maze.init maze_str = Raise e) ↔
  ragged (Maze.rows_of maze_str)
  ∨ count "A" (Maze.rows_of maze_str) = 0%nat
  ∨ count "B" (Maze.rows_of maze_str) = 0%nat.
Proof.
  unfold Maze.init. set (rows := Maze.rows_of maze_str).
  destruct (Maze.shape rows) as [[h w]|] eqn:Hshape.
  - pose proof (scan_spec rows h w) as (HA & HnA & HB & HnB).
    assert (¬ ragged rows) as Hrag.
    { intros Hr. assert (Maze.shape rows = None) by (apply shape_None; auto). congruence. }
    assert (∀ c, (∀ i j, (i < h)%nat ∧ (j < w)%nat → Maze.at_nat rows i j ≠ Some c) →
                 count c rows = 0%nat) as Hnone.
    { intros c Hc. apply count_0. intros (i & j & Hij)%at_nat_concat.
      eapply Hc; [|done]. by eapply at_nat_in_shape. }
    assert (∀ c i j, Maze.at_nat rows i j = Some c → count c rows ≠ 0%nat) as Hsome.
    { intros c i j Hij H0. apply count_0 in H0. apply H0, at_nat_concat. eauto. }
    destruct (Maze.scan rows h w) as [[s|] [t|]]; simpl in *.
    + split; [by intros [e ?]|]. intros [?|[H0|H0]]; [done|exfalso..].
      * destruct (HA s eq_refl) as (i & j & _ & _ & Hc). by eapply Hsome.
      * destruct (HB t eq_refl) as (i & j & _ & _ & Hc). by eapply Hsome.
    + split; [|eauto]. intros _. right; right. apply Hnone. auto.
    + split; [|eauto]. intros _. right; left. apply Hnone. auto.
    + split; [|eauto]. intros _. right; left. apply Hnone. auto.
  - split; [|eauto]. intros _.
    apply shape_None in Hshape as [Hnil|?]; [|auto].
    right; left. by rewrite Hnil.
Qed.

Lemma init_Raise_tag (maze_str : string) (e : Error) :
  Maze.init maze_str = Raise e → e = MalformedGrid.
Proof.
  unfold Maze.init. destruct (Maze.shape _) as [[h w]|]; [|by intros [= <-]].
  destruct (Maze.scan _ h w) as [[s|] [t|]]; by intros [= <-].
Qed.

(** * The grid *)

(** ** neighbors *)

Lemma neighbors_elem (g : Maze) (s : Z * Z) (x : string * (Z * Z)) :
  x ∈ Maze.neighbors g s ↔ x ∈ Maze.directions s ∧ Maze.passable g x.2.
Proof. unfold Maze.neighbors. rewrite list_elem_of_filter. tauto. Qed.

Lemma directions_adjacent (s t : Z * Z) :
  (∃ a, (a, t) ∈ Maze.directions s) ↔ adjacent s t.
Proof.
  destruct s as [i j], t as [i' j']. unfold adjacent, Maze.directions. simpl. split.
  - intros [a Ha]. repeat (apply elem_of_cons in Ha as [[= -> -> ->]|Ha]; [lia|]).
    by apply elem_of_nil in Ha.
  - intros Hadj.
    assert ((i' = i ∧ j' = j + 1) ∨ (i' = i + 1 ∧ j' = j)
            ∨ (i' = i ∧ j' = j - 1) ∨ (i' = i - 1 ∧ j' = j))
      as [[-> ->]|[[-> ->]|[[-> ->]|[-> ->]]]] by lia.
    + exists "right"%string. set_solver.
    + exists "down"%string. set_solver.
    + exists "left"%string. set_solver.
    + exists "up"%string. set_solver.
Qed.

Lemma step_neighbors (g : Maze) (s t : Z * Z) :
  step g s t ↔ ∃ a, (a, t) ∈ Maze.neighbors g s.
Proof.
  unfold step. rewrite <- directions_adjacent. setoid_rewrite neighbors_elem. simpl.
  split; [intros [[a Ha] Hp]|intros [a [Ha Hp]]]; eauto.
Qed.

Lemma neighbors_step (g : Maze) (s : Z * Z) (x : string * (Z * Z)) :
  x ∈ Maze.neighbors g s → step g s x.2.
Proof. destruct x as [a t]. intros Hx. apply step_neighbors. eauto. Qed.

Lemma neighbors_sublist (g : Maze) (s : Z * Z) :
  sublist (Maze.neighbors g s) (Maze.directions s).
Proof. apply sublist_filter. Qed.

(** ** cells *)

Lemma elem_of_cells (g : Maze) (c : Z * Z) :
  c ∈ cells g ↔ 0 ≤ c.1 < Maze.height g ∧ 0 ≤ c.2 < Maze.width g.
Proof.
  unfold cells. rewrite list_elem_of_bind. setoid_rewrite list_elem_of_fmap.
  setoid_rewrite elem_of_seq. destruct c as [i j]. simpl. split.
  - intros (i' & (j' & [= -> ->] & Hj) & Hi). lia.
  - intros [Hi Hj]. exists (Z.to_nat i). split; [|lia].
    exists (Z.to_nat j). split; [f_equal; lia|lia].
Qed.

Lemma NoDup_cells (g : Maze) : NoDup (cells g).
Proof.
  unfold cells. apply NoDup_bind.
  - intros i i' c _ _ (j & -> & _)%list_elem_of_fmap (j' & [= Hi _] & _)%list_elem_of_fmap. lia.
  - intros i _. apply NoDup_fmap_2; [|apply NoDup_seq]. intros j j' [= ?]. lia.
  - apply NoDup_seq.
Qed.

Lemma length_cells (g : Maze) :
  maze_wf g → length (cells g) = Z.to_nat (Maze.height g * Maze.width g).
Proof.
  intros Hwf. unfold cells.
  assert (∀ (l : list nat) (w : nat),
    length (i ← l; (λ j, (Z.of_nat i, Z.of_nat j)) <$> seq 0 w) = (length l * w)%nat) as Hlen.
  { intros l w. induction l as [|i l IH]; [done|].
    rewrite bind_cons, length_app, length_fmap, length_seq, IH. done. }
  etransitivity; [apply Hlen|]. rewrite length_seq.
  destruct Hwf as [_ _ Hs _ _ _]. lia.
Qed.

Lemma passable_cells (g : Maze) (c : Z * Z) : Maze.passable g c → c ∈ cells g.
Proof. intros (? & ? & _). by apply elem_of_cells. Qed.

Lemma start_passable (g : Maze) : maze_wf g → Maze.passable g (Maze.start g).
Proof.
  intros [_ _ [? ?] _ HA _]. unfold Maze.passable.
  split; [done|]. split; [done|]. rewrite HA. done.
Qed.

(** ** Routes *)

Lemma walk_app (g : Maze) (s m t : Z * Z) (n1 n2 : nat) :
  walk g s m n1 → walk g m t n2 → walk g s t (n1 + n2).
Proof.
  induction 1 as [s|s m' m n1 Hstep _ IH]; intros Hw; [done|].
  simpl. eapply walk_cons; eauto.
Qed.

Lemma walk_snoc (g : Maze) (s m t : Z * Z) (n : nat) :
  walk g s m n → step g m t → walk g s t (S n).
Proof.
  intros Hw Hstep. replace (S n) with (n + 1)%nat by lia.
  eapply walk_app; [done|]. eapply walk_cons; [done|constructor].
Qed.

Lemma walk_0 (g : Maze) (s t : Z * Z) : walk g s t 0 → s = t.
Proof. by inversion 1. Qed.

Lemma walk_S (g : Maze) (s t : Z * Z) (n : nat) :
  walk g s t (S n) → ∃ m, step g s m ∧ walk g m t n.
Proof. inversion 1; eauto. Qed.

Lemma walk_passable (g : Maze) (s t : Z * Z) (n : nat) :
  walk g s t n → Maze.passable g s → Maze.passable g t.
Proof.
  induction 1 as [s|s m t n [_ Hp] _ IH]; auto.
Qed.

(** ** heuristic *)

Lemma heuristic_goal (g : Maze) : Maze.heuristic g (Maze.goal g) = 0.
Proof. unfold Maze.heuristic. lia. Qed.

Lemma heuristic_nonneg (g : Maze) (s : Z * Z) : 0 ≤ Maze.heuristic g s.
Proof. unfold Maze.heuristic. lia. Qed.

(** Consistency: one move changes the Manhattan distance by one at most. *)
Lemma heuristic_step (g : Maze) (s t : Z * Z) :
  adjacent s t → Maze.heuristic g s ≤ 1 + Maze.heuristic g t.
Proof. unfold adjacent, Maze.heuristic. lia. Qed.

(** Admissibility: the Manhattan distance never exceeds the moves needed. *)
Lemma heuristic_walk (g : Maze) (s t : Z * Z) (n : nat) :
  walk g s t n → Maze.heuristic g s ≤ Z.of_nat n + Maze.heuristic g t.
Proof.
  induction 1 as [s|s m t n [Hadj _] _ IH]; [lia|].
  pose proof (heuristic_step g s m Hadj). lia.
Qed.

(** * Search nodes *)

(** Induction along the parent links. *)
Lemma Node_parent_ind (P : Node → Prop) :
  (∀ s a c h, P (Node.mk s None a c h)) →
  (∀ s p a c h, P p → P (Node.mk s (Some p) a c h)) →
  ∀ n, P n.
Proof.
  intros Hroot Hchild. fix IH 1. intros [s [p|] a c h].
  - apply Hchild, IH.
  - apply Hroot.
Qed.

Lemma lineage_self (n : Node) : n ∈ lineage n.
Proof. destruct n; simpl; left. Qed.

Lemma node_ok_lineage (g : Maze) (n m : Node) :
  node_ok g n → m ∈ lineage n → node_ok g m.
Proof.
  induction n as [s a c h|s p a c h IH] using Node_parent_ind; simpl.
  - intros Hn ->%list_elem_of_singleton. done.
  - intros Hn [->|Hm]%elem_of_cons; [done|]. apply IH; [|done]. by destruct Hn as (_ & _ & _ & ?).
Qed.

Lemma node_ok_heuristic (g : Maze) (n : Node) :
  node_ok g n → Node.heuristic n = Maze.heuristic g (Node.state n).
Proof.
  destruct n as [s [p|] a c h]; simpl.
  - by intros (_ & _ & ? & _).
  - by intros [= -> -> -> ->].
Qed.

(** The cost of a node is the number of its ancestors, and the states along
    its lineage make a route from the start. *)
Lemma node_ok_walk (g : Maze) (n : Node) :
  node_ok g n →
  ∃ k, Node.cost n = Z.of_nat k ∧ length (lineage n) = S k
       ∧ walk g (Maze.start g) (Node.state n) k.
Proof.
  induction n as [s a c h|s p a c h IH] using Node_parent_ind; simpl.
  - intros [= -> -> -> ->]. exists 0%nat. split_and!; [done|done|constructor].
  - intros ((a' & _ & Hnb) & Hc & _ & Hp).
    destruct (IH Hp) as (k & Hk & Hlen & Hw). exists (S k).
    split_and!; [lia|by rewrite Hlen|].
    eapply walk_snoc; [done|]. by apply (neighbors_step g _ (a', s)).
Qed.

Lemma node_ok_cost_mono (g : Maze) (n m : Node) :
  node_ok g n → m ∈ lineage n → Node.cost m ≤ Node.cost n.
Proof.
  induction n as [s a c h|s p a c h IH] using Node_parent_ind; simpl.
  - intros _ ->%list_elem_of_singleton. done.
  - intros (_ & Hc & _ & Hp) [->|Hm]%elem_of_cons; [done|].
    specialize (IH Hp Hm). simpl in *. lia.
Qed.

Lemma node_ok_cells (g : Maze) (n : Node) :
  maze_wf g → node_ok g n → Node.state n ∈ cells g.
Proof.
  intros Hwf Hn. destruct (node_ok_walk g n Hn) as (k & _ & _ & Hw).
  apply passable_cells. eapply walk_passable; [done|]. by apply start_passable.
Qed.

(** A lineage without repeated states is no longer than the cell count. *)
Lemma lineage_length (g : Maze) (n : Node) :
  maze_wf g → node_ok g n → NoDup (Node.state <$> lineage n) →
  (length (lineage n) ≤ length (cells g))%nat.
Proof.
  intros Hwf Hn Hnd. rewrite <- (length_fmap Node.state).
  apply NoDup_incl_length; [by apply NoDup_ListNoDup|].
  intros c Hc%list_elem_of_In. apply list_elem_of_In.
  apply list_elem_of_fmap in Hc as (m & -> & Hm).
  apply node_ok_cells; [done|]. by eapply node_ok_lineage.
Qed.

(** ** Path reconstruction *)

Lemma route_facts (g : Maze) (path : list (Z * Z)) (actions : list (option string)) (t : Z * Z) :
  route g path actions t →
  head path = Some (Maze.start g) ∧ last path = Some t
  ∧ length path = S (length actions)
  ∧ ∀ i s u, path !! i = Some s → path !! S i = Some u →
      ∃ a, actions !! i = Some (Some a) ∧ (a, u) ∈ Maze.neighbors g s.
Proof.
  induction 1 as [|path actions s a t Hr (Hhd & Hlast & Hlen & Hsteps) Hnb].
  - split_and!; try done; intros [|i] s u Hi HSi; done.
  - split_and!.
    + destruct path; [done|]. done.
    + by rewrite last_snoc.
    + rewrite !length_app. simpl. lia.
    + intros i s' u Hi HSi.
      assert (i < length path)%nat as Hlt.
      { apply lookup_lt_Some in HSi. rewrite length_app in HSi. simpl in HSi. lia. }
      rewrite lookup_app_l in Hi by done.
      destruct (decide (S i < length path)%nat) as [Hlt'|Hge].
      * rewrite lookup_app_l in HSi by done.
        destruct (Hsteps i s' u Hi HSi) as (a' & Ha' & ?). exists a'.
        split; [|done]. by apply lookup_app_l_Some.
      * assert (S i = length path) as HS by lia.
        rewrite HS, list_lookup_middle in HSi by done. inversion HSi; subst u.
        assert (s' = s) as ->.
        { rewrite last_lookup in Hlast. rewrite <- HS in Hlast. simpl in Hlast. congruence. }
        exists a. split; [|done].
        assert (i = length actions) as -> by lia.
        by rewrite list_lookup_middle.
Qed.

Lemma reconstruct_route (g : Maze) (n : Node) :
  node_ok g n →
  route g (Maze.reconstruct g n).1 (Maze.reconstruct g n).2 (Node.state n)
  ∧ Z.of_nat (length (Maze.reconstruct g n).2) = Node.cost n
  ∧ (Maze.reconstruct g n).1 = reverse (Node.state <$> lineage n).
Proof.
  unfold Maze.reconstruct.
  induction n as [s a c h|s p a c h IH] using Node_parent_ind; simpl.
  - intros [= -> -> -> ->]. split_and!; [constructor|done|done].
  - intros ((a' & -> & Hnb) & Hc & _ & Hp). specialize (IH Hp).
    destruct (Maze.trace_back p) as [path actions]. simpl in *.
    destruct IH as (Hr & Hlen & Hpath).
    rewrite !reverse_cons. split_and!.
    + eapply route_snoc; eauto.
    + rewrite length_app. simpl. lia.
    + by rewrite Hpath.
Qed.

(** * The loop of solve *)

(** ** The frontier as a bag of nodes *)

Lemma fkey_lt (a b : Node) : Node.lt a b = (fkey a <? fkey b).
Proof. done. Qed.

Lemma elem_of_heappush (F : list Node) (x n : Node) :
  n ∈ heapq.heappush Node.lt F x ↔ n = x ∨ n ∈ F.
Proof. by rewrite heappush_perm, elem_of_cons. Qed.

Lemma elem_of_heappop (F F' : list Node) (m : Node) :
  heapq.heappop Node.lt F = Some (m, F') → ∀ n, n ∈ F ↔ n = m ∨ n ∈ F'.
Proof. intros Hpop%heappop_perm n. by rewrite Hpop, elem_of_cons. Qed.

Lemma relax_unfold (g : Maze) (alg : string) (m : Node) (st : Maze.locals)
    (a : string) (t : Z * Z) :
  Maze.relax g alg m st (a, t) =
  if Maze.improves (Maze.visited st) t (Node.cost m + 1)
  then Maze.mk_locals
         (heapq.heappush Node.lt (Maze.frontier st)
            (Node.mk t (Some m) (Some a) (Node.cost m + 1) (Maze.heuristic g t)))
         (<[t:=Node.cost m + 1]> (Maze.visited st))
         (Maze.all_visited st ∪ {[t]})
         (Maze.pushed st ++ [t])
  else st.
Proof. done. Qed.

Lemma improves_true (V : gmap (Z * Z) Z) (t : Z * Z) (c : Z) :
  Maze.improves V t c = true ↔ V !! t = None ∨ ∃ old, V !! t = Some old ∧ c < old.
Proof.
  unfold Maze.improves. destruct (V !! t) as [old|].
  - rewrite Z.ltb_lt. split; [eauto|]. intros [?|(? & [= <-] & ?)]; done.
  - split; auto.
Qed.

Lemma improves_false (V : gmap (Z * Z) Z) (t : Z * Z) (c : Z) :
  Maze.improves V t c = false ↔ ∃ old, V !! t = Some old ∧ old ≤ c.
Proof.
  unfold Maze.improves. destruct (V !! t) as [old|].
  - rewrite Z.ltb_ge. split; [eauto|]. by intros (? & [= <-] & ?).
  - split; [done|]. by intros (? & ? & _).
Qed.

(** ** The invariant holds when the loop is entered *)

Lemma inv_init (g : Maze) : inv g None [] (Maze.init_locals g).
Proof.
  assert (∀ n, n ∈ heapq.heappush Node.lt [] (Maze.start_node g) → n = Maze.start_node g) as Hin.
  { intros n [->|Hn]%elem_of_heappush; [done|]. by apply elem_of_nil in Hn. }
  split; simpl.
  - intros n ->%Hin. done.
  - intros n ->%Hin. simpl. apply NoDup_singleton.
  - intros n m ->%Hin ->%list_elem_of_singleton. simpl.
    exists 0. by rewrite lookup_singleton_eq.
  - intros s v [<- <-]%lookup_singleton_Some. exists 0%nat. split; [done|constructor].
  - by rewrite lookup_singleton_eq.
  - by rewrite dom_singleton_L.
  - set_solver.
  - apply (heappush_ok Node.lt fkey fkey_lt), heap_ok_nil.
  - done.
  - intros s Hs. left. exists (Maze.start_node g). split.
    + apply elem_of_heappush. by left.
    + rewrite dom_singleton_L in Hs. set_solver.
Qed.

(** ** Taking a node off the frontier *)

Lemma inv_pop (g : Maze) (st : Maze.locals) (m : Node) (F' : list Node) :
  inv g None [] st →
  heapq.heappop Node.lt (Maze.frontier st) = Some (m, F') →
  Node.state m ≠ Maze.goal g →
  inv g (Some m) (Maze.neighbors g (Node.state m))
      (Maze.mk_locals F' (Maze.visited st) (Maze.all_visited st) (Maze.pushed st)).
Proof.
  intros [Hn Hs Hb Hr H0 Hd Hl Hh _ Hc] Hpop Hgoal.
  pose proof (elem_of_heappop _ _ _ Hpop) as Hin.
  assert (∀ n, n ∈ m :: F' → n ∈ Maze.frontier st) as Hin'.
  { intros n Hn'%elem_of_cons. by apply Hin. }
  split; simpl in *.
  - auto.
  - auto.
  - intros n m' ? ?. apply (Hb n); auto.
  - done.
  - done.
  - done.
  - done.
  - by destruct (heappop_ok Node.lt fkey fkey_lt _ _ _ Hh Hpop).
  - by intros ? [= <-].
  - intros s Hs'. destruct (Hc s Hs') as [(n & Hn' & <-)|[Hcl|(? & ? & _)]]; [|auto|done].
    apply Hin in Hn' as [->|Hn']; [|eauto].
    right; right. exists m. eauto.
Qed.

(** ** One entry of neighbors *)

Lemma inv_relax (g : Maze) (alg : string) (m : Node) (x : string * (Z * Z))
    (rest : list (string * (Z * Z))) (st : Maze.locals) :
  inv g (Some m) (x :: rest) st → inv g (Some m) rest (Maze.relax g alg m st x).
Proof.
  intros [Hn Hs Hb Hr H0 Hd Hl Hh Hcur Hc]. destruct x as [a t].
  destruct (Hcur m eq_refl) as [Hgoal Hrest].
  assert (Hx : (a, t) ∈ Maze.neighbors g (Node.state m)) by (apply Hrest; left).
  assert (Hm : node_ok g m) by (apply Hn; left).
  rewrite relax_unfold.
  destruct (Maze.improves _ t _) eqn:Himp.
  2:{ apply improves_false in Himp as (old & Hold & Hle).
      split; try done.
      - intros m' [= <-]. split; [done|]. intros y Hy. apply Hrest. by right.
      - intros s Hs'. destruct (Hc s Hs') as [?|[?|(m' & [= <-] & <- & Hnb)]]; auto.
        right; right. exists m. split_and!; try done.
        intros y Hy. destruct (Hnb y Hy) as [?|[->|?]%elem_of_cons]; auto.
        left. simpl. apply elem_of_dom. eauto. }
  apply improves_true in Himp.
  set (new := Node.mk t (Some m) (Some a) (Node.cost m + 1) (Maze.heuristic g t)).
  destruct (node_ok_walk g m Hm) as (k & Hk & Hlen & Hw).
  assert (Hnew : node_ok g new).
  { simpl. split_and!; eauto. }
  assert (Hfresh : ∀ m', m' ∈ lineage m → Node.state m' ≠ t).
  { intros m' Hm' <-.
    destruct (Hb m m' ltac:(left) Hm') as (v & Hv & Hle).
    pose proof (node_ok_cost_mono g m m' Hm Hm').
    destruct Himp as [Hnone|(old & Hold & Hlt)]; [congruence|].
    assert (old = v) by congruence. lia. }
  assert (Hplay : ∀ n, n ∈ in_play (Some m)
      (Maze.mk_locals (heapq.heappush Node.lt (Maze.frontier st) new)
         (<[t:=Node.cost m + 1]> (Maze.visited st))
         (Maze.all_visited st ∪ {[t]}) (Maze.pushed st ++ [t])) →
      n = new ∨ n ∈ in_play (Some m) st).
  { simpl. intros n [->|[->|?]%elem_of_heappush]%elem_of_cons; auto.
    - right; left.
    - right; by right. }
  split; simpl.
  - intros n [->|?]%Hplay; auto.
  - intros n [->|?]%Hplay; auto.
    simpl. apply NoDup_cons. split; [|apply Hs; left].
    intros (m' & Ht & Hm')%list_elem_of_fmap. by apply (Hfresh m').
  - intros n m' Hn' Hm'.
    assert (m' = new ∨ ∃ n0, n0 ∈ in_play (Some m) st ∧ m' ∈ lineage n0) as [->|(n0 & Hn0 & Hm0)].
    { apply Hplay in Hn' as [->|?]; [|eauto].
      simpl in Hm'. apply elem_of_cons in Hm' as [->|?]; [auto|].
      right. exists m. split; [left|done]. }
    { simpl. rewrite lookup_insert_eq. eexists; split; [done|lia]. }
    destruct (Hb n0 m' Hn0 Hm0) as (v & Hv & Hle).
    destruct (decide (Node.state m' = t)) as [Ht|Hne].
    + rewrite Ht in *. rewrite lookup_insert_eq. eexists; split; [done|].
      destruct Himp as [Hnone|(old & Hold & Hlt)]; [congruence|].
      assert (old = v) by congruence. lia.
    + rewrite lookup_insert_ne by done. eauto.
  - intros s v. destruct (decide (s = t)) as [->|Hne].
    + rewrite lookup_insert_eq. intros [= <-]. exists (S k). split; [lia|].
      eapply walk_snoc; [done|]. by apply (neighbors_step g _ (a, t)).
    + rewrite lookup_insert_ne by done. apply Hr.
  - destruct (decide (Maze.start g = t)) as [<-|Hne].
    + destruct Himp as [Hnone|(old & Hold & Hlt)]; [congruence|].
      assert (old = 0) by congruence. lia.
    + by rewrite lookup_insert_ne.
  - rewrite dom_insert_L, Hd. set_solver.
  - rewrite list_to_set_app_L, <- Hl. set_solver.
  - by apply (heappush_ok Node.lt fkey fkey_lt).
  - intros m' [= <-]. split; [done|]. intros y Hy. apply Hrest. by right.
  - intros s. rewrite dom_insert_L. intros Hs'.
    destruct (decide (s = t)) as [->|Hne].
    { left. exists new. split; [|done]. apply elem_of_heappush. by left. }
    assert (s ∈ dom (Maze.visited st)) as Hs0 by set_solver.
    destruct (Hc s Hs0) as [(n & Hn' & <-)|[[Hg Hcl]|(m' & [= <-] & <- & Hnb)]].
    + left. exists n. split; [|done]. apply elem_of_heappush. by right.
    + right; left. split; [done|]. intros y Hy. specialize (Hcl y Hy). set_solver.
    + right; right. exists m. split_and!; try done.
      intros y Hy. destruct (Hnb y Hy) as [?|[->|?]%elem_of_cons]; [left|left|by right].
      * set_solver.
      * simpl. set_solver.
Qed.

(** ** The node is done *)

Lemma inv_done (g : Maze) (m : Node) (st : Maze.locals) :
  inv g (Some m) [] st → inv g None [] st.
Proof.
  intros [Hn Hs Hb Hr H0 Hd Hl Hh Hcur Hc].
  destruct (Hcur m eq_refl) as [Hgoal _].
  split; simpl in *; try done.
  - intros n ?. apply Hn. by right.
  - intros n ?. apply Hs. by right.
  - intros n m' ? ?. apply (Hb n); [by right|done].
  - intros s Hs'. destruct (Hc s Hs') as [?|[?|(m' & [= <-] & <- & Hnb)]]; auto.
    right; left. split; [done|]. intros y Hy.
    destruct (Hnb y Hy) as [?|Hy']; [done|]. by apply elem_of_nil in Hy'.
Qed.

Lemma inv_expand (g : Maze) (alg : string) (m : Node)
    (rest : list (string * (Z * Z))) (st : Maze.locals) :
  inv g (Some m) rest st →
  inv g None [] (fold_left (Maze.relax g alg m) rest st).
Proof.
  revert st. induction rest as [|x rest IH]; intros st Hinv; simpl.
  - by eapply inv_done.
  - by apply IH, inv_relax.
Qed.

(** ** One turn *)

Lemma inv_turn (g : Maze) (alg : string) (st st' : Maze.locals) :
  inv g None [] st → Maze.turn g alg st = inr st' → inv g None [] st'.
Proof.
  intros Hinv. unfold Maze.turn.
  destruct (heapq.heappop _ _) as [[m F']|] eqn:Hpop; [|done].
  case_bool_decide as Hgoal; [done|]. intros [= <-].
  unfold Maze.expand. eapply inv_expand. simpl. by apply inv_pop.
Qed.

(** ** Every frontier configuration satisfies the invariant *)

Lemma reached_inv (g : Maze) (alg : string) (st : Maze.locals) :
  reached g alg st → inv g None [] st.
Proof.
  intros [n Hn]. revert st Hn. induction n as [|n IH]; simpl; intros st.
  - intros [= <-]. apply inv_init.
  - destruct (locals_after n g alg) as [st0|]; [|done].
    destruct (Maze.turn g alg st0) as [r|st1] eqn:Hturn; [done|].
    intros [= <-]. eapply inv_turn; [|done]. by apply IH.
Qed.

Lemma reached_init (g : Maze) (alg : string) : reached g alg (Maze.init_locals g).
Proof. by exists 0%nat. Qed.

Lemma reached_turn (g : Maze) (alg : string) (st st' : Maze.locals) :
  reached g alg st → Maze.turn g alg st = inr st' → reached g alg st'.
Proof. intros [n Hn] Hturn. exists (S n). simpl. by rewrite Hn, Hturn. Qed.

(** The outcome of the loop is the outcome of a turn taken in a reached
    configuration. *)
Lemma loop_reached (n : nat) (g : Maze) (alg : string) (st : Maze.locals)
    (r : result Maze.answer) :
  reached g alg st → Maze.loop n g alg st = Some r →
  ∃ st', reached g alg st' ∧ Maze.turn g alg st' = inl r.
Proof.
  revert st. induction n as [|n IH]; intros st Hst; simpl; [done|].
  destruct (Maze.turn g alg st) as [r'|st'] eqn:Hturn.
  - intros [= <-]. eauto.
  - apply IH. by eapply reached_turn.
Qed.

Lemma loop_mono (n n' : nat) (g : Maze) (alg : string) (st : Maze.locals)
    (r : result Maze.answer) :
  Maze.loop n g alg st = Some r → (n ≤ n')%nat → Maze.loop n' g alg st = Some r.
Proof.
  revert n' st. induction n as [|n IH]; intros n' st; simpl; [done|].
  intros Hloop Hle. destruct n' as [|n']; [lia|]. simpl.
  destruct (Maze.turn g alg st) as [r'|st']; [done|]. apply IH; [done|lia].
Qed.

(** ** Termination *)

Lemma sum_list_with_ext {A : Type} (f f' : A → nat) (l : list A) :
  (∀ c, c ∈ l → f' c = f c) → sum_list_with f' l = sum_list_with f l.
Proof.
  induction l as [|a l IH]; intros Hext; simpl; [done|].
  rewrite Hext by left. rewrite IH; [done|]. intros c Hc. apply Hext. by right.
Qed.

Lemma sum_list_with_decrease {A : Type} (f f' : A → nat) (l : list A) (t : A) :
  NoDup l → t ∈ l → (∀ c, c ≠ t → f' c = f c) → (f' t < f t)%nat →
  (sum_list_with f' l < sum_list_with f l)%nat.
Proof.
  intros Hnd Ht Hext Hlt. induction l as [|a l IH]; [by apply elem_of_nil in Ht|].
  apply NoDup_cons in Hnd as [Ha Hnd]. simpl.
  apply elem_of_cons in Ht as [<-|Ht].
  - rewrite (sum_list_with_ext f f' l); [lia|].
    intros c Hc. apply Hext. by intros ->.
  - rewrite (Hext a) by (by intros ->). specialize (IH Hnd Ht). lia.
Qed.

Lemma measure_relax (g : Maze) (alg : string) (m : Node) (x : string * (Z * Z))
    (rest : list (string * (Z * Z))) (st : Maze.locals) :
  maze_wf g → inv g (Some m) (x :: rest) st →
  (measure g (Maze.relax g alg m st x) ≤ measure g st)%nat.
Proof.
  intros Hwf Hinv. pose proof (inv_relax g alg m x rest st Hinv) as Hinv'.
  destruct x as [a t]. rewrite relax_unfold in *.
  destruct (Maze.improves _ t _) eqn:Himp; [|done].
  apply improves_true in Himp.
  set (new := Node.mk t (Some m) (Some a) (Node.cost m + 1) (Maze.heuristic g t)) in *.
  assert (Hm : node_ok g m) by (apply Hinv; left).
  destruct (node_ok_walk g m Hm) as (k & Hk & Hlen & Hw).
  assert (Hnew : new ∈ in_play (Some m)
      (Maze.mk_locals (heapq.heappush Node.lt (Maze.frontier st) new)
         (<[t:=Node.cost m + 1]> (Maze.visited st))
         (Maze.all_visited st ∪ {[t]}) (Maze.pushed st ++ [t]))).
  { simpl. right. apply elem_of_heappush. by left. }
  pose proof (lineage_length g new Hwf (inv_nodes _ _ _ _ Hinv' new Hnew)
                (inv_simple _ _ _ _ Hinv' new Hnew)) as Hbound.
  simpl in Hbound. rewrite Hlen in Hbound.
  unfold measure. simpl.
  rewrite (Permutation_length (heappush_perm Node.lt _ _)). simpl.
  enough (sum_list_with (potential g (<[t:=(Node.cost m + 1)%Z]> (Maze.visited st))) (cells g)
          < sum_list_with (potential g (Maze.visited st)) (cells g))%nat by lia.
  apply (sum_list_with_decrease _ _ _ t).
  - apply NoDup_cells.
  - apply (node_ok_cells g new Hwf). by apply (inv_nodes _ _ _ _ Hinv').
  - intros c Hc. unfold potential. by rewrite lookup_insert_ne.
  - unfold potential. rewrite lookup_insert_eq.
    destruct Himp as [->|(old & -> & Hlt)]; lia.
Qed.

Lemma measure_expand (g : Maze) (alg : string) (m : Node)
    (rest : list (string * (Z * Z))) (st : Maze.locals) :
  maze_wf g → inv g (Some m) rest st →
  (measure g (fold_left (Maze.relax g alg m) rest st) ≤ measure g st)%nat.
Proof.
  intros Hwf. revert st. induction rest as [|x rest IH]; intros st Hinv; simpl; [done|].
  etransitivity; [apply IH; by apply inv_relax|]. by eapply measure_relax.
Qed.

Lemma measure_turn (g : Maze) (alg : string) (st st' : Maze.locals) :
  maze_wf g → inv g None [] st → Maze.turn g alg st = inr st' →
  (measure g st' < measure g st)%nat.
Proof.
  intros Hwf Hinv. unfold Maze.turn.
  destruct (heapq.heappop _ _) as [[m F']|] eqn:Hpop; [|done].
  case_bool_decide as Hgoal; [done|]. intros [= <-].
  unfold Maze.expand.
  eapply Nat.le_lt_trans; [apply measure_expand; [done|]; by apply inv_pop|].
  unfold measure. simpl.
  rewrite (Permutation_length (heappop_perm Node.lt _ _ _ Hpop)). simpl. lia.
Qed.

Lemma loop_returns (n : nat) (g : Maze) (alg : string) (st : Maze.locals) :
  maze_wf g → inv g None [] st → (measure g st < n)%nat →
  ∃ r, Maze.loop n g alg st = Some r.
Proof.
  intros Hwf. revert st. induction n as [|n IH]; intros st Hinv Hlt; [lia|]. simpl.
  destruct (Maze.turn g alg st) as [r|st'] eqn:Hturn; [eauto|].
  apply IH; [by eapply inv_turn|].
  pose proof (measure_turn g alg st st' Hwf Hinv Hturn). lia.
Qed.

Lemma measure_init (g : Maze) :
  maze_wf g → (measure g (Maze.init_locals g) < Maze.turns_bound g)%nat.
Proof.
  intros Hwf. unfold measure, Maze.turns_bound, Maze.init_locals.
  cbn [Maze.frontier Maze.visited].
  rewrite (Permutation_length (heappush_perm Node.lt _ _)). cbn [length].
  rewrite <- (length_cells g Hwf).
  assert (∀ V (l : list (Z * Z)),
    (∀ v c, V !! c = Some v → Z.to_nat v ≤ length (cells g))%nat →
    (sum_list_with (potential g V) l ≤ length l * length (cells g))%nat) as Hsum.
  { intros V l HV. induction l as [|c l IH]; simpl; [done|].
    assert (potential g V c ≤ length (cells g))%nat; [|lia].
    unfold potential. destruct (V !! c) eqn:E; [by eapply HV|done]. }
  specialize (Hsum {[Maze.start g := 0]} (cells g)).
  assert (sum_list_with (potential g {[Maze.start g := 0%Z]}) (cells g)
          ≤ length (cells g) * length (cells g))%nat; [|lia].
  apply Hsum. intros v c [_ <-]%lookup_singleton_Some. lia.
Qed.

(** On a constructed grid solve ends within its bound on the turns. *)
Lemma solve_returns (g : Maze) (alg : string) :
  maze_wf g → ∃ r, Maze.solve g alg = Some r.
Proof.
  intros Hwf. unfold Maze.solve, Maze.solve_within. destruct (Maze.bad_algorithm alg); [eauto|].
  apply loop_returns; [done|apply inv_init|by apply measure_init].
Qed.

(** ** Optimality *)

(** On a shortest route the position is the true distance from the start. *)
Lemma on_opt_least (g : Maze) (k : nat) (t : Z * Z) (j n : nat) :
  shortest g k → on_opt g k t j → walk g (Maze.start g) t n → (j ≤ n)%nat.
Proof.
  intros [_ Hmin] (Hjk & _ & Hgoal) Hw.
  pose proof (Hmin _ (walk_app g _ _ _ _ _ Hw Hgoal)). lia.
Qed.

Lemma opt_init (g : Maze) (k : nat) : opt_inv g k None [] (Maze.init_locals g).
Proof.
  intros s j _. simpl. intros [<- Hj]%lookup_singleton_Some.
  left. exists (Maze.start_node g). split_and!; [|done|simpl; lia].
  apply elem_of_heappush. by left.
Qed.

Lemma opt_pop (g : Maze) (k : nat) (st : Maze.locals) (m : Node) (F' : list Node) :
  opt_inv g k None [] st →
  heapq.heappop Node.lt (Maze.frontier st) = Some (m, F') →
  opt_inv g k (Some m) (Maze.neighbors g (Node.state m))
      (Maze.mk_locals F' (Maze.visited st) (Maze.all_visited st) (Maze.pushed st)).
Proof.
  intros Hopt Hpop s j Hon Hv. simpl in *.
  destruct (Hopt s j Hon Hv) as [(n & Hn & <- & Hc)|[?|(? & ? & _)]]; [|auto|done].
  apply (elem_of_heappop _ _ _ Hpop) in Hn as [->|Hn]; [|eauto].
  right; right. exists m. split_and!; [done..|]. intros y Hy _. by right.
Qed.

Lemma opt_relax (g : Maze) (k : nat) (alg : string) (m : Node) (x : string * (Z * Z))
    (rest : list (string * (Z * Z))) (st : Maze.locals) :
  shortest g k → inv g (Some m) (x :: rest) st →
  opt_inv g k (Some m) (x :: rest) st →
  opt_inv g k (Some m) rest (Maze.relax g alg m st x).
Proof.
  intros Hk Hinv Hopt. destruct x as [a t]. rewrite relax_unfold.
  assert (Hm : node_ok g m) by (apply Hinv; left).
  destruct (node_ok_walk g m Hm) as (km & Hkm & _ & Hwm).
  assert (Hx : (a, t) ∈ Maze.neighbors g (Node.state m)).
  { destruct (inv_cur _ _ _ _ Hinv m eq_refl) as [_ Hrest]. apply Hrest. left. }
  assert (Hwt : walk g (Maze.start g) t (S km)).
  { eapply walk_snoc; [done|]. by apply (neighbors_step g _ (a, t)). }
  destruct (Maze.improves _ t _) eqn:Himp.
  - (* a node for [t] is pushed *)
    apply improves_true in Himp. intros s j Hon. simpl.
    destruct (decide (s = t)) as [->|Hne].
    { rewrite lookup_insert_eq. intros [= Hj]. left.
      eexists. split_and!; [apply elem_of_heappush; by left|done|done]. }
    rewrite lookup_insert_ne by done. intros Hv.
    assert (∀ y : string * (Z * Z), on_opt g k y.2 (S j) →
              Maze.visited st !! y.2 = Some (Z.of_nat (S j)) →
              <[t:=Node.cost m + 1]> (Maze.visited st) !! y.2 = Some (Z.of_nat (S j)))
      as Hkeep.
    { intros y Hy Hvy. destruct (decide (y.2 = t)) as [Ht|?]; [|by rewrite lookup_insert_ne].
      rewrite Ht in *. pose proof (on_opt_least g k t (S j) (S km) Hk Hy Hwt).
      destruct Himp as [?|(old & Hold & Hlt)]; [congruence|].
      assert (old = Z.of_nat (S j)) by congruence. lia. }
    destruct (Hopt s j Hon Hv) as [(n & Hn & Hs & Hc)|[[Hg Hcl]|(m' & [= <-] & Hs & Hc & Hnb)]].
    + left. exists n. split_and!; [apply elem_of_heappush; by right|done|done].
    + right; left. split; [done|]. intros y Hy Hony. apply Hkeep; auto.
    + right; right. exists m. split_and!; try done.
      intros y Hy Hony. destruct (Hnb y Hy Hony) as [?|[->|?]%elem_of_cons]; [| |by right].
      * left. by apply Hkeep.
      * left. simpl. rewrite lookup_insert_eq. f_equal. lia.
  - (* nothing changes *)
    apply improves_false in Himp as (old & Hold & Hle). intros s j Hon Hv.
    destruct (Hopt s j Hon Hv) as [?|[?|(m' & [= <-] & Hs & Hc & Hnb)]]; auto.
    right; right. exists m. split_and!; try done.
    intros y Hy Hony. destruct (Hnb y Hy Hony) as [?|[->|?]%elem_of_cons]; auto.
    left. change ((a, t).2) with t in *.
    destruct (inv_real _ _ _ _ Hinv t old Hold) as (k' & -> & Hw').
    pose proof (on_opt_least g k t (S j) k' Hk Hony Hw'). rewrite Hold. f_equal. lia.
Qed.

Lemma opt_done (g : Maze) (k : nat) (m : Node) (st : Maze.locals) :
  inv g (Some m) [] st → opt_inv g k (Some m) [] st → opt_inv g k None [] st.
Proof.
  intros Hinv Hopt s j Hon Hv.
  destruct (Hopt s j Hon Hv) as [?|[?|(m' & [= <-] & <- & Hc & Hnb)]]; auto.
  right; left. destruct (inv_cur _ _ _ _ Hinv m eq_refl) as [Hgoal _].
  split; [done|]. intros y Hy Hony.
  destruct (Hnb y Hy Hony) as [?|Hy']; [done|]. by apply elem_of_nil in Hy'.
Qed.

Lemma opt_expand (g : Maze) (k : nat) (alg : string) (m : Node)
    (rest : list (string * (Z * Z))) (st : Maze.locals) :
  shortest g k → inv g (Some m) rest st → opt_inv g k (Some m) rest st →
  opt_inv g k None [] (fold_left (Maze.relax g alg m) rest st).
Proof.
  intros Hk. revert st. induction rest as [|x rest IH]; intros st Hinv Hopt; simpl.
  - by eapply opt_done.
  - apply IH; [by apply inv_relax|by apply opt_relax].
Qed.

Lemma opt_turn (g : Maze) (k : nat) (alg : string) (st st' : Maze.locals) :
  shortest g k → inv g None [] st → opt_inv g k None [] st →
  Maze.turn g alg st = inr st' → opt_inv g k None [] st'.
Proof.
  intros Hk Hinv Hopt. unfold Maze.turn.
  destruct (heapq.heappop _ _) as [[m F']|] eqn:Hpop; [|done].
  case_bool_decide as Hgoal; [done|]. intros [= <-].
  unfold Maze.expand. apply opt_expand; [done|by apply inv_pop|by apply opt_pop].
Qed.

Lemma reached_opt (g : Maze) (k : nat) (alg : string) (st : Maze.locals) :
  shortest g k → reached g alg st → opt_inv g k None [] st.
Proof.
  intros Hk [n Hn]. revert st Hn. induction n as [|n IH]; simpl; intros st.
  - intros [= <-]. apply opt_init.
  - destruct (locals_after n g alg) as [st0|] eqn:Hst0; [|done].
    destruct (Maze.turn g alg st0) as [r|st1] eqn:Hturn; [done|].
    intros [= <-]. eapply opt_turn; [done| |by apply IH|done].
    apply (reached_inv g alg). by exists n.
Qed.

(** Some node of the frontier lies on a shortest route and carries its true
    distance as cost. *)
Lemma opt_witness (g : Maze) (k : nat) (st : Maze.locals) :
  shortest g k → inv g None [] st → opt_inv g k None [] st →
  ∃ n j, n ∈ Maze.frontier st ∧ on_opt g k (Node.state n) j
         ∧ Node.cost n = Z.of_nat j.
Proof.
  intros Hk Hinv Hopt.
  assert (∀ d s j, d = (k - j)%nat → on_opt g k s j →
            Maze.visited st !! s = Some (Z.of_nat j) →
            ∃ n j, n ∈ Maze.frontier st ∧ on_opt g k (Node.state n) j
                   ∧ Node.cost n = Z.of_nat j) as Hgen.
  { induction d as [|d IH]; intros s j Hd Hon Hv.
    - destruct (Hopt s j Hon Hv) as [(n & Hn & <- & Hc)|[[Hg _]|(? & ? & _)]]; [eauto| |done].
      destruct Hon as (_ & _ & Hw). rewrite <- Hd in Hw. by apply walk_0 in Hw.
    - destruct (Hopt s j Hon Hv) as [(n & Hn & <- & Hc)|[[Hg Hcl]|(? & ? & _)]]; [eauto| |done].
      destruct Hon as (Hjk & Hws & Hw). rewrite <- Hd in Hw.
      apply walk_S in Hw as (u & Hstep & Hw).
      pose proof Hstep as [a Ha]%step_neighbors.
      assert (on_opt g k u (S j)) as Hon'.
      { split_and!; [lia|by eapply walk_snoc|]. by replace (k - S j)%nat with d by lia. }
      apply (IH u (S j)); [lia|done|]. by apply (Hcl (a, u)). }
  destruct Hk as [Hw Hmin].
  apply (Hgen k (Maze.start g) 0%nat); [lia| |by apply Hinv].
  split_and!; [lia|constructor|by rewrite Nat.sub_0_r].
Qed.

(** The first goal node taken off the frontier has the least cost. *)
Lemma goal_cost (g : Maze) (k : nat) (alg : string) (st : Maze.locals)
    (m : Node) (F' : list Node) :
  shortest g k → reached g alg st →
  heapq.heappop Node.lt (Maze.frontier st) = Some (m, F') →
  Node.state m = Maze.goal g →
  Node.cost m = Z.of_nat k.
Proof.
  intros Hk Hst Hpop Hgoal.
  pose proof (reached_inv g alg st Hst) as Hinv.
  pose proof (reached_opt g k alg st Hk Hst) as Hopt.
  destruct (opt_witness g k st Hk Hinv Hopt) as (n & j & Hn & (Hjk & _ & Hw) & Hc).
  destruct (heappop_ok Node.lt fkey fkey_lt _ _ _ (inv_heap _ _ _ _ Hinv) Hpop) as [_ Hmin].
  specialize (Hmin n Hn).
  assert (Hm : node_ok g m).
  { apply Hinv. simpl. apply (elem_of_heappop _ _ _ Hpop). by left. }
  assert (Hnok : node_ok g n) by (by apply Hinv).
  unfold fkey in Hmin.
  rewrite (node_ok_heuristic g m Hm), (node_ok_heuristic g n Hnok) in Hmin.
  rewrite Hgoal, heuristic_goal in Hmin.
  pose proof (heuristic_walk g _ _ _ Hw) as Hadm. rewrite heuristic_goal in Hadm.
  destruct (node_ok_walk g m Hm) as (km & Hkm & _ & Hwm). rewrite Hgoal in Hwm.
  destruct Hk as [_ Hleast]. specialize (Hleast km Hwm). lia.
Qed.

(** * The outcome of solve *)

Lemma heappop_None (F : list Node) : heapq.heappop Node.lt F = None → F = [].
Proof.
  intros Hpop. destruct F as [|n F]; [done|].
  destruct (heappop_Some Node.lt (n :: F)) as (x & F' & Hx); [done|congruence].
Qed.

(** A turn ends the call in two ways only. *)
Lemma turn_inl (g : Maze) (alg : string) (st : Maze.locals) (r : result Maze.answer) :
  Maze.turn g alg st = inl r →
  (Maze.frontier st = [] ∧ r = Raise NoPathError)
  ∨ (∃ m F', heapq.heappop Node.lt (Maze.frontier st) = Some (m, F')
             ∧ Node.state m = Maze.goal g
             ∧ r = Ok (Maze.reconstruct g m, Maze.all_visited st)).
Proof.
  unfold Maze.turn. destruct (heapq.heappop _ _) as [[m F']|] eqn:Hpop.
  - case_bool_decide as Hgoal; [|done]. intros [= <-]. right. eauto.
  - intros [= <-]. left. split; [by apply heappop_None|done].
Qed.

Lemma bad_algorithm_false (alg : string) :
  Maze.bad_algorithm alg = false ↔ Py.lower alg = "a*"%string ∨ Py.lower alg = "greedy"%string.
Proof.
  unfold Maze.bad_algorithm. rewrite negb_false_iff, orb_true_iff, !String.eqb_eq. done.
Qed.

Lemma solve_within_Some (n : nat) (g : Maze) (alg : string) (r : result Maze.answer) :
  Maze.solve_within n g alg = Some r →
  (Maze.bad_algorithm alg = true ∧ r = Raise InvalidStrategy)
  ∨ (Maze.bad_algorithm alg = false
     ∧ ∃ st, reached g alg st ∧ Maze.turn g alg st = inl r).
Proof.
  unfold Maze.solve_within. destruct (Maze.bad_algorithm alg).
  - intros [= <-]. by left.
  - intros Hloop. right. split; [done|].
    eapply loop_reached; [apply reached_init|done].
Qed.

(** The least element of the frontier by cost plus heuristic is the one
    taken, whatever the strategy. *)
Lemma popped_least_fkey (g : Maze) (alg : string) (st : Maze.locals)
    (m : Node) (F' : list Node) :
  reached g alg st →
  heapq.heappop Node.lt (Maze.frontier st) = Some (m, F') →
  m ∈ Maze.frontier st ∧ ∀ n, n ∈ Maze.frontier st → fkey m ≤ fkey n.
Proof.
  intros Hst%reached_inv Hpop. split.
  - apply (elem_of_heappop _ _ _ Hpop). by left.
  - by destruct (heappop_ok Node.lt fkey fkey_lt _ _ _ (inv_heap _ _ _ _ Hst) Hpop).
Qed.

(** ** Least number of moves *)

Lemma walk_dec (g : Maze) (s t : Z * Z) (n : nat) : Decision (walk g s t n).
Proof.
  revert s. induction n as [|n IH]; intros s.
  - destruct (decide (s = t)) as [->|Hne]; [left; constructor|right].
    by intros ?%walk_0.
  - destruct (decide (Exists (λ x : string * (Z * Z), walk g x.2 t n)
                             (Maze.neighbors g s))) as [Hex|Hnex].
    + left. apply Exists_exists in Hex as (x & Hx & Hw).
      eapply walk_cons; [|done]. by apply neighbors_step.
    + right. intros (u & [a Ha]%step_neighbors & Hw)%walk_S.
      apply Hnex, Exists_exists. by exists (a, u).
Qed.

Lemma shortest_exists (g : Maze) : solvable g → ∃ k, shortest g k.
Proof.
  intros [n Hn].
  assert (∀ b, (∀ m, (m < b)%nat → ¬ walk g (Maze.start g) (Maze.goal g) m)
               ∨ ∃ k, shortest g k) as Hleast.
  { induction b as [|b [IH|IH]]; [left; intros; lia| |by right].
    destruct (walk_dec g (Maze.start g) (Maze.goal g) b) as [Hb|Hb].
    - right. exists b. split; [done|]. intros m Hm.
      destruct (decide (m < b)%nat) as [Hlt|]; [|lia]. by destruct (IH m Hlt).
    - left. intros m Hm. destruct (decide (m = b)) as [->|]; [done|]. apply IH. lia. }
  destruct (Hleast (S n)) as [Hnone|?]; [|done]. destruct (Hnone n); [lia|done].
Qed.

(** * Properties of the grid and of the search engine *)

(** C1, at the failing input.  On the maze [.A. / .#. / .B.] with the
    selector greedy, the third node taken off the frontier is the one at
    (0, 0), of cost 1 and heuristic 3, although the frontier also holds the
    node at (1, 2), of cost 2 and heuristic 2: the node taken has the least
    cost plus heuristic, not the least heuristic.  The search then goes on
    along both sides of the wall: the visited set that solve returns holds
    (1, 0) and (2, 0) as well as (1, 2) and (2, 2). *)
Theorem greedy_pops_by_cost_plus_heuristic :
  (∃ st m F' n,
     locals_after 2 detour_grid "greedy" = Some st
     ∧ heapq.heappop Node.lt (Maze.frontier st) = Some (m, F')
     ∧ n ∈ Maze.frontier st
     ∧ (Node.state m, Node.cost m, Node.heuristic m) = ((0, 0), 1, 3)
     ∧ (Node.state n, Node.cost n, Node.heuristic n) = ((1, 2), 2, 2)
     ∧ Node.heuristic n < Node.heuristic m
     ∧ fkey m ≤ fkey n)
  ∧ Maze.solve detour_grid "greedy" =
    Some (Ok ([(0, 1); (0, 2); (1, 2); (2, 2); (2, 1)],
              [Some "right"; Some "down"; Some "down"; Some "left"]%string,
              list_to_set [(0, 1); (0, 2); (0, 0); (1, 2); (1, 0);
                           (2, 2); (2, 0); (2, 1)])).
Proof.
  split.
  - destruct (locals_after 2 detour_grid "greedy") as [st|] eqn:Hst;
      [|by vm_compute in Hst].
    destruct (heapq.heappop Node.lt (Maze.frontier st)) as [[m F']|] eqn:Hpop.
    2:{ revert Hpop. injection Hst as <-. by vm_compute. }
    destruct (Maze.frontier st !! 1%nat) as [n|] eqn:Hn.
    2:{ revert Hn. injection Hst as <-. by vm_compute. }
    exists st, m, F', n.
    split; [done|]. split; [done|]. split; [by eapply list_elem_of_lookup_2|].
    revert Hpop Hn. injection Hst as <-. vm_compute.
    intros [= <- _] [= <-]. done.
  - vm_compute. reflexivity.
Qed.

(** C2.  On a solvable grid, solve with the selector a* returns a path whose
    number of steps is the least number of moves from the start to the
    goal. *)
Theorem astar_optimal (maze_str : string) (g : Maze) :
  Maze.init maze_str = Ok g → solvable g →
  ∃ path actions vis k,
    Maze.solve g "a*" = Some (Ok (path, actions, vis))
    ∧ shortest g k
    ∧ length actions = k
    ∧ length path = S k.
Proof.
  intros [Hwf _]%init_Ok [k Hk]%shortest_exists.
  destruct (solve_returns g "a*" Hwf) as [r Hr].
  destruct (solve_within_Some _ _ _ _ Hr) as [[? _]|(_ & st & Hst & Hturn)]; [done|].
  pose proof (reached_inv _ _ _ Hst) as Hinv.
  apply turn_inl in Hturn as [[Hnil _]|(m & F' & Hpop & Hgoal & ->)].
  - destruct (opt_witness g k st Hk Hinv (reached_opt g k _ st Hk Hst)) as (n & _ & Hn & _).
    rewrite Hnil in Hn. by apply elem_of_nil in Hn.
  - pose proof (goal_cost g k _ st m F' Hk Hst Hpop Hgoal) as Hcost.
    assert (Hm : node_ok g m).
    { apply Hinv. simpl. apply (elem_of_heappop _ _ _ Hpop). by left. }
    destruct (reconstruct_route g m Hm) as (Hroute & Hlen & _).
    destruct (route_facts _ _ _ _ Hroute) as (_ & _ & Hlen' & _).
    destruct (Maze.reconstruct g m) as [path actions]. simpl in *.
    exists path, actions, (Maze.all_visited st), k.
    split_and!; [done|done|lia|lia].
Qed.

Lemma astar_optimal_witness :
  Maze.init ring_maze = Ok ring_grid ∧ solvable ring_grid
  ∧ ∃ path actions vis k,
      Maze.solve ring_grid "a*" = Some (Ok (path, actions, vis))
      ∧ shortest ring_grid k ∧ length actions = k ∧ length path = S k.
Proof.
  assert (Hinit : Maze.init ring_maze = Ok ring_grid) by (vm_compute; reflexivity).
  assert (Hsolv : solvable ring_grid).
  { exists 4%nat.
    apply (walk_cons _ _ (0, 1)); [vm_compute; repeat split; discriminate|].
    apply (walk_cons _ _ (0, 2)); [vm_compute; repeat split; discriminate|].
    apply (walk_cons _ _ (1, 2)); [vm_compute; repeat split; discriminate|].
    apply (walk_cons _ _ (2, 2)); [vm_compute; repeat split; discriminate|].
    apply walk_nil. }
  exact (conj Hinit (conj Hsolv (astar_optimal ring_maze ring_grid Hinit Hsolv))).
Defined.

(** C3, as the code has it.  solve gets past the selector test exactly for
    the selectors whose lower-cased form is a* or greedy; for every other
    selector it ends with InvalidStrategy without a single turn of the
    search loop. *)
Theorem solve_selector (maze_str : string) (g : Maze) (algorithm : string) :
  Maze.init maze_str = Ok g →
  (accepts g algorithm ↔
     Py.lower algorithm = "a*"%string ∨ Py.lower algorithm = "greedy"%string)
  ∧ (¬ accepts g algorithm →
     ∀ n, Maze.solve_within n g algorithm = Some (Raise InvalidStrategy)).
Proof.
  intros [Hwf _]%init_Ok. rewrite <- bad_algorithm_false.
  assert (Hbad : Maze.bad_algorithm algorithm = true →
                 ∀ n, Maze.solve_within n g algorithm = Some (Raise InvalidStrategy)).
  { intros Hb n. unfold Maze.solve_within. by rewrite Hb. }
  assert (Hgood : Maze.bad_algorithm algorithm = false → accepts g algorithm).
  { intros Hb. destruct (solve_returns g algorithm Hwf) as [r Hr].
    exists r. split; [done|]. intros ->.
    destruct (solve_within_Some _ _ _ _ Hr) as [[? _]|(_ & st & _ & Hturn)]; [congruence|].
    by apply turn_inl in Hturn as [[_ ?]|(? & ? & _ & _ & ?)]. }
  split; [split|].
  - intros (r & Hr & Hne). destruct (Maze.bad_algorithm algorithm) eqn:Hb; [|done].
    unfold Maze.solve in Hr. rewrite (Hbad eq_refl) in Hr. congruence.
  - done.
  - intros Hacc. destruct (Maze.bad_algorithm algorithm) eqn:Hb; [auto|].
    destruct Hacc. auto.
Qed.

Lemma solve_selector_witness :
  Maze.init ring_maze = Ok ring_grid
  ∧ (accepts ring_grid "a-star" ↔
       Py.lower "a-star" = "a*"%string ∨ Py.lower "a-star" = "greedy"%string)
  ∧ (¬ accepts ring_grid "a-star" →
     ∀ n, Maze.solve_within n ring_grid "a-star" = Some (Raise InvalidStrategy)).
Proof.
  assert (Hinit : Maze.init ring_maze = Ok ring_grid) by (vm_compute; reflexivity).
  exact (conj Hinit (solve_selector ring_maze ring_grid "a-star" Hinit)).
Defined.

(** C3 as stated fails: the selector a-star is rejected, and the selector
    GREEDY, which is neither of the two names, is accepted. *)
Lemma selector_names_counterexample :
  Maze.solve ring_grid "a-star" = Some (Raise InvalidStrategy)
  ∧ ¬ accepts ring_grid "a-star"
  ∧ accepts ring_grid "GREEDY".
Proof.
  split; [vm_compute; reflexivity|]. split.
  - intros (r & Hr & Hne). vm_compute in Hr. injection Hr as <-. by apply Hne.
  - eexists. split; [vm_compute; reflexivity|done].
Qed.

(** C4, as the code has it.  Construction fails, and then with
    MalformedGrid, exactly when the rows (the lines that are not blank)
    differ in length, or no cell holds the start marker, or no cell holds the
    goal marker; a text with two start markers, rows of one length and a
    goal marker is accepted. *)
Theorem init_rejects (maze_str : string) :
  (Maze.init maze_str = Raise MalformedGrid ↔
     ragged (Maze.rows_of maze_str)
     ∨ count "A" (Maze.rows_of maze_str) = 0%nat
     ∨ count "B" (Maze.rows_of maze_str) = 0%nat)
  ∧ (∀ e, Maze.init maze_str = Raise e → e = MalformedGrid)
  ∧ (¬ ragged (Maze.rows_of maze_str) →
     count "A" (Maze.rows_of maze_str) = 2%nat →
     count "B" (Maze.rows_of maze_str) = 1%nat →
     ∃ g, Maze.init maze_str = Ok g).
Proof.
  split_and!.
  - rewrite <- init_Raise. split; [eauto|].
    intros [e He]. by rewrite (init_Raise_tag _ _ He) in He.
  - apply init_Raise_tag.
  - intros Hr HA HB. destruct (Maze.init maze_str) as [g|e] eqn:Hinit; [eauto|].
    assert (∃ e, Maze.init maze_str = Raise e) as Hfail by eauto.
    apply init_Raise in Hfail as [?|[?|?]]; [done|lia|lia].
Qed.

Lemma init_rejects_witness :
  ¬ ragged (Maze.rows_of two_starts)
  ∧ count "A" (Maze.rows_of two_starts) = 2%nat
  ∧ count "B" (Maze.rows_of two_starts) = 1%nat
  ∧ ∃ g, Maze.init two_starts = Ok g.
Proof.
  assert (Hr : ¬ ragged (Maze.rows_of two_starts)).
  { intros (r1 & r2 & H1 & H2 & Hne). vm_compute in H1, H2.
    apply list_elem_of_singleton in H1, H2. subst. by apply Hne. }
  assert (HA : count "A" (Maze.rows_of two_starts) = 2%nat) by (vm_compute; reflexivity).
  assert (HB : count "B" (Maze.rows_of two_starts) = 1%nat) by (vm_compute; reflexivity).
  destruct (init_rejects two_starts) as (_ & _ & Hacc).
  exact (conj Hr (conj HA (conj HB (Hacc Hr HA HB)))).
Defined.

(** C4 as stated fails: the text AAB has two start markers and is accepted. *)
Lemma two_starts_accepted :
  count "A" (Maze.rows_of two_starts) = 2%nat
  ∧ Maze.init two_starts = Ok (Maze.mk [["A"; "A"; "B"]%char] 1 3 (0, 1) (0, 2)).
Proof. split; vm_compute; reflexivity. Qed.

(** C5.  The two strategies return the same outcome on every grid: the same
    path, the same actions and the same visited set, or the same failure. *)
Theorem strategies_coincide (g : Maze) :
  Maze.solve g "a*" = Maze.solve g "greedy".
Proof.
  unfold Maze.solve, Maze.solve_within.
  change (Maze.bad_algorithm "a*") with false.
  change (Maze.bad_algorithm "greedy") with false. cbv iota.
  generalize (Maze.turns_bound g) (Maze.init_locals g).
  assert (∀ st, Maze.turn g "a*" st = Maze.turn g "greedy" st) as Hturn.
  { (* [priority] is computed and never used: the body of the loop is the
       same function for every selector *)
    intros st. unfold Maze.turn, Maze.expand, Maze.relax. reflexivity. }
  intros n. induction n as [|n IH]; intros st; simpl; [done|].
  rewrite Hturn. destruct (Maze.turn g "greedy" st); [done|]. apply IH.
Qed.

(** C6.  A path returned by solve starts at the start and ends at the goal,
    has one action per step, every step goes to a cell that [neighbors]
    offers under the recorded action (so to an adjacent cell), and every
    cell of it is in bounds and not a wall. *)
Theorem path_valid (maze_str : string) (g : Maze) (algorithm : string)
    (path : list (Z * Z)) (actions : list (option string)) (vis : gset (Z * Z)) :
  Maze.init maze_str = Ok g →
  Maze.solve g algorithm = Some (Ok (path, actions, vis)) →
  head path = Some (Maze.start g)
  ∧ last path = Some (Maze.goal g)
  ∧ length path = S (length actions)
  ∧ (∀ i s t, path !! i = Some s → path !! S i = Some t →
       ∃ a, actions !! i = Some (Some a)
            ∧ (a, t) ∈ Maze.neighbors g s ∧ adjacent s t)
  ∧ (∀ s, s ∈ path →
       0 ≤ s.1 < Maze.height g ∧ 0 ≤ s.2 < Maze.width g
       ∧ Maze.at_ g s ≠ Some "#"%char).
Proof.
  intros [Hwf _]%init_Ok Hsolve.
  destruct (solve_within_Some _ _ _ _ Hsolve) as [[_ ?]|(_ & st & Hst & Hturn)]; [done|].
  pose proof (reached_inv _ _ _ Hst) as Hinv.
  apply turn_inl in Hturn as [[_ ?]|(m & F' & Hpop & Hgoal & [= Hrec _])]; [done|].
  assert (Hm : node_ok g m).
  { apply Hinv. simpl. apply (elem_of_heappop _ _ _ Hpop). by left. }
  destruct (reconstruct_route g m Hm) as (Hroute & _ & Hpath).
  rewrite <- Hrec in *. simpl in *.
  destruct (route_facts _ _ _ _ Hroute) as (Hhd & Hlast & Hlen & Hsteps).
  split_and!; [done|by rewrite <- Hgoal|done| |].
  - intros i s t Hi HSi. destruct (Hsteps i s t Hi HSi) as (a & Ha & Hnb).
    exists a. split_and!; [done|done|]. by apply (neighbors_step g s (a, t)).
  - intros s. rewrite Hpath, elem_of_reverse, list_elem_of_fmap.
    intros (m' & -> & Hm').
    destruct (node_ok_walk g m' (node_ok_lineage g m m' Hm Hm')) as (k & _ & _ & Hw).
    apply (walk_passable g _ _ _ Hw), start_passable, Hwf.
Qed.

Lemma path_valid_witness :
  Maze.init ring_maze = Ok ring_grid
  ∧ Maze.solve ring_grid "a*" = Some (Ok ring_answer)
  ∧ head ring_answer.1.1 = Some (Maze.start ring_grid)
  ∧ last ring_answer.1.1 = Some (Maze.goal ring_grid)
  ∧ length ring_answer.1.1 = S (length ring_answer.1.2)
  ∧ (∀ i s t, ring_answer.1.1 !! i = Some s → ring_answer.1.1 !! S i = Some t →
       ∃ a, ring_answer.1.2 !! i = Some (Some a)
            ∧ (a, t) ∈ Maze.neighbors ring_grid s ∧ adjacent s t)
  ∧ (∀ s, s ∈ ring_answer.1.1 →
       0 ≤ s.1 < Maze.height ring_grid ∧ 0 ≤ s.2 < Maze.width ring_grid
       ∧ Maze.at_ ring_grid s ≠ Some "#"%char).
Proof.
  assert (Hinit : Maze.init ring_maze = Ok ring_grid) by (vm_compute; reflexivity).
  assert (Hsolve : Maze.solve ring_grid "a*" = Some (Ok ring_answer))
    by (vm_compute; reflexivity).
  exact (conj Hinit (conj Hsolve
    (path_valid ring_maze ring_grid "a*" _ _ _ Hinit Hsolve))).
Defined.

(** C7.  With a valid selector, solve on a constructed grid ends with
    NoPathError exactly when the goal cannot be reached from the start; this
    holds for either strategy, and NoPathError is the only failure that the
    call can end with. *)
Theorem no_path_iff (maze_str : string) (g : Maze) (algorithm : string) :
  Maze.init maze_str = Ok g →
  Py.lower algorithm = "a*"%string ∨ Py.lower algorithm = "greedy"%string →
  (Maze.solve g algorithm = Some (Raise NoPathError) ↔ ¬ solvable g)
  ∧ ∃ r, Maze.solve g algorithm = Some r ∧ ∀ e, r = Raise e → e = NoPathError.
Proof.
  intros [Hwf _]%init_Ok Hvalid%bad_algorithm_false.
  destruct (solve_returns g algorithm Hwf) as [r Hr].
  destruct (solve_within_Some _ _ _ _ Hr) as [[? _]|(_ & st & Hst & Hturn)]; [congruence|].
  pose proof (reached_inv _ _ _ Hst) as Hinv.
  apply turn_inl in Hturn as [[Hnil ->]|(m & F' & Hpop & Hgoal & ->)].
  - (* the frontier is empty: the visited cells are closed under moves *)
    assert (Hclosed : ∀ s t n, walk g s t n → s ∈ dom (Maze.visited st) →
                        t ∈ dom (Maze.visited st) ∧ t ≠ Maze.goal g).
    { induction 1 as [s|s u t n [a Ha]%step_neighbors _ IH]; intros Hs.
      - destruct (inv_complete _ _ _ _ Hinv s Hs) as [(n & Hn & _)|[[? _]|(? & ? & _)]];
          [|done|done].
        rewrite Hnil in Hn. by apply elem_of_nil in Hn.
      - apply IH.
        destruct (inv_complete _ _ _ _ Hinv s Hs) as [(n' & Hn & _)|[[_ Hcl]|(? & ? & _)]];
          [|by apply (Hcl (a, u))|done].
        rewrite Hnil in Hn. by apply elem_of_nil in Hn. }
    assert (Hno : ¬ solvable g).
    { intros [n Hn]. destruct (Hclosed _ _ _ Hn) as [_ ?]; [|done].
      apply elem_of_dom. rewrite (inv_start _ _ _ _ Hinv). eauto. }
    split; [by rewrite Hr|]. exists (Raise NoPathError). split; [done|]. by intros e [= <-].
  - assert (Hm : node_ok g m).
    { apply Hinv. simpl. apply (elem_of_heappop _ _ _ Hpop). by left. }
    destruct (node_ok_walk g m Hm) as (k & _ & _ & Hw). rewrite Hgoal in Hw.
    split; [|eexists; split; [done|done]].
    rewrite Hr. split; [done|]. intros Hno. destruct Hno. by exists k.
Qed.

Lemma no_path_iff_witness :
  Maze.init notebook_maze = Ok notebook_grid
  ∧ (Py.lower "greedy" = "a*"%string ∨ Py.lower "greedy" = "greedy"%string)
  ∧ (Maze.solve notebook_grid "greedy" = Some (Raise NoPathError)
     ↔ ¬ solvable notebook_grid)
  ∧ ∃ r, Maze.solve notebook_grid "greedy" = Some r
         ∧ ∀ e, r = Raise e → e = NoPathError.
Proof.
  assert (Hinit : Maze.init notebook_maze = Ok notebook_grid)
    by (vm_compute; reflexivity).
  assert (Hvalid : Py.lower "greedy" = "a*"%string ∨ Py.lower "greedy" = "greedy"%string)
    by (right; vm_compute; reflexivity).
  exact (conj Hinit (conj Hvalid
    (no_path_iff notebook_maze notebook_grid "greedy" Hinit Hvalid))).
Defined.

(** C8.  When solve returns, its visited set is the set of the states
    handed to heappush during the call, the start among them, and it holds
    every state of the returned path. *)
Theorem visited_is_pushed (g : Maze) (algorithm : string)
    (path : list (Z * Z)) (actions : list (option string)) (vis : gset (Z * Z)) :
  Maze.solve g algorithm = Some (Ok (path, actions, vis)) →
  ∃ st, reached g algorithm st
        ∧ Maze.turn g algorithm st = inl (Ok (path, actions, vis))
        ∧ vis = list_to_set (Maze.pushed st)
        ∧ Maze.start g ∈ Maze.pushed st
        ∧ Maze.start g ∈ vis
        ∧ ∀ s, s ∈ path → s ∈ vis.
Proof.
  intros Hsolve.
  destruct (solve_within_Some _ _ _ _ Hsolve) as [[_ ?]|(_ & st & Hst & Hturn)]; [done|].
  pose proof (reached_inv _ _ _ Hst) as Hinv.
  exists st. split; [done|]. split; [done|].
  apply turn_inl in Hturn as [[_ ?]|(m & F' & Hpop & Hgoal & [= Hrec ->])]; [done|].
  assert (Hstart : Maze.start g ∈ Maze.all_visited st).
  { rewrite (inv_dom _ _ _ _ Hinv). apply elem_of_dom.
    rewrite (inv_start _ _ _ _ Hinv). eauto. }
  split_and!.
  - apply Hinv.
  - rewrite (inv_log _ _ _ _ Hinv) in Hstart. by apply elem_of_list_to_set in Hstart.
  - done.
  - assert (Hin : m ∈ Maze.frontier st).
    { apply (elem_of_heappop _ _ _ Hpop). by left. }
    destruct (reconstruct_route g m (inv_nodes _ _ _ _ Hinv m Hin)) as (_ & _ & Hpath).
    rewrite <- Hrec in Hpath. simpl in Hpath.
    intros s. rewrite Hpath, elem_of_reverse, list_elem_of_fmap.
    intros (m' & -> & Hm').
    destruct (inv_bound _ _ _ _ Hinv m m' Hin Hm') as (v & Hv & _).
    rewrite (inv_dom _ _ _ _ Hinv). apply elem_of_dom. eauto.
Qed.

Lemma visited_is_pushed_witness :
  Maze.solve ring_grid "a*" = Some (Ok ring_answer)
  ∧ ∃ st, reached ring_grid "a*" st
          ∧ Maze.turn ring_grid "a*" st = inl (Ok ring_answer)
          ∧ ring_answer.2 = list_to_set (Maze.pushed st)
          ∧ Maze.start ring_grid ∈ Maze.pushed st
          ∧ Maze.start ring_grid ∈ ring_answer.2
          ∧ ∀ s, s ∈ ring_answer.1.1 → s ∈ ring_answer.2.
Proof.
  assert (Hsolve : Maze.solve ring_grid "a*" = Some (Ok ring_answer))
    by (vm_compute; reflexivity).
  exact (conj Hsolve (visited_is_pushed ring_grid "a*" _ _ _ Hsolve)).
Defined.

(** C9.  [neighbors] lists, in the order right, down, left, up, exactly the
    entries of that list whose cell is in bounds and not a wall; the cells it
    offers are the adjacent cells that are in bounds and not a wall.  It
    returns a list and nothing else: the grid is a value that no operation
    changes. *)
Theorem neighbors_spec (g : Maze) (i j : Z) :
  sublist (Maze.neighbors g (i, j))
          [("right", (i, j + 1)); ("down", (i + 1, j));
           ("left", (i, j - 1)); ("up", (i - 1, j))]%string
  ∧ (∀ a t, (a, t) ∈ Maze.neighbors g (i, j) ↔
       (a, t) ∈ [("right", (i, j + 1)); ("down", (i + 1, j));
                 ("left", (i, j - 1)); ("up", (i - 1, j))]%string
       ∧ 0 ≤ t.1 < Maze.height g ∧ 0 ≤ t.2 < Maze.width g
       ∧ Maze.at_ g t ≠ Some "#"%char)
  ∧ (∀ t, (∃ a, (a, t) ∈ Maze.neighbors g (i, j)) ↔
       adjacent (i, j) t
       ∧ 0 ≤ t.1 < Maze.height g ∧ 0 ≤ t.2 < Maze.width g
       ∧ Maze.at_ g t ≠ Some "#"%char).
Proof.
  split_and!.
  - apply neighbors_sublist.
  - intros a t. apply neighbors_elem.
  - intros t. rewrite <- step_neighbors. done.
Qed.

(** The bounded run is adequate: when two bounds both let the loop end, the
    outcome is the same, so [solve], which runs under [turns_bound], returns
    what any longer run returns. *)
Lemma solve_within_agree (g : Maze) (algorithm : string) (n1 n2 : nat)
    (r1 r2 : result Maze.answer) :
  Maze.solve_within n1 g algorithm = Some r1 →
  Maze.solve_within n2 g algorithm = Some r2 →
  r1 = r2.
Proof.
  unfold Maze.solve_within. destruct (Maze.bad_algorithm algorithm); [congruence|].
  intros H1 H2.
  apply (loop_mono n1 (n1 + n2)) in H1; [|lia].
  apply (loop_mono n2 (n1 + n2)) in H2; [|lia]. congruence.
Qed.

(** * Further properties of the grid *)

Lemma start_ne_goal (g : Maze) : maze_wf g → Maze.start g ≠ Maze.goal g.
Proof.
  intros [_ _ _ _ HA HB] Heq. rewrite Heq, HB in HA. discriminate.
Qed.

Lemma heuristic_zero (g : Maze) (s : Z * Z) :
  Maze.heuristic g s = 0 ↔ s = Maze.goal g.
Proof.
  unfold Maze.heuristic. destruct s as [i j], (Maze.goal g) as [gi gj]. simpl.
  split; [intros H; f_equal; lia|intros [= -> ->]; lia].
Qed.

(** X1.  A constructed maze has as many rows as the text has lines that are
    not blank, and every such line has the recorded width; a cell holds a
    character other than NUL exactly when the text has it at that place; the
    start and the goal are in bounds, on cells marked A and B, and apart. *)
Theorem init_establishes (maze_str : string) (g : Maze) :
  Maze.init maze_str = Ok g →
  Maze.height g = Z.of_nat (length (Maze.rows_of maze_str))
  ∧ (∀ r, r ∈ Maze.rows_of maze_str → Z.of_nat (length r) = Maze.width g)
  ∧ (∀ (i j : nat) (c : ascii), c ≠ Ascii.zero →
       Maze.at_ g (Z.of_nat i, Z.of_nat j) = Some c
       ↔ Maze.at_nat (Maze.rows_of maze_str) i j = Some c)
  ∧ (0 ≤ (Maze.start g).1 < Maze.height g ∧ 0 ≤ (Maze.start g).2 < Maze.width g)
  ∧ (0 ≤ (Maze.goal g).1 < Maze.height g ∧ 0 ≤ (Maze.goal g).2 < Maze.width g)
  ∧ Maze.at_ g (Maze.start g) = Some "A"%char
  ∧ Maze.at_ g (Maze.goal g) = Some "B"%char
  ∧ Maze.start g ≠ Maze.goal g.
Proof.
  intros [Hwf Hrows]%init_Ok. pose proof (start_ne_goal g Hwf).
  destruct Hwf as [Hh Hw Hs Hg HA HB].
  split_and!; try done; try lia.
  - by rewrite <- Hrows.
  - by rewrite <- Hrows.
  - intros i j c _. unfold Maze.at_. cbn [fst snd]. by rewrite !Nat2Z.id, Hrows.
Qed.

Lemma init_establishes_witness :
  Maze.init ring_maze = Ok ring_grid
  ∧ Maze.height ring_grid = Z.of_nat (length (Maze.rows_of ring_maze))
  ∧ (∀ r, r ∈ Maze.rows_of ring_maze → Z.of_nat (length r) = Maze.width ring_grid)
  ∧ (∀ (i j : nat) (c : ascii), c ≠ Ascii.zero →
       Maze.at_ ring_grid (Z.of_nat i, Z.of_nat j) = Some c
       ↔ Maze.at_nat (Maze.rows_of ring_maze) i j = Some c)
  ∧ (0 ≤ (Maze.start ring_grid).1 < Maze.height ring_grid
     ∧ 0 ≤ (Maze.start ring_grid).2 < Maze.width ring_grid)
  ∧ (0 ≤ (Maze.goal ring_grid).1 < Maze.height ring_grid
     ∧ 0 ≤ (Maze.goal ring_grid).2 < Maze.width ring_grid)
  ∧ Maze.at_ ring_grid (Maze.start ring_grid) = Some "A"%char
  ∧ Maze.at_ ring_grid (Maze.goal ring_grid) = Some "B"%char
  ∧ Maze.start ring_grid ≠ Maze.goal ring_grid.
Proof.
  assert (Hinit : Maze.init ring_maze = Ok ring_grid) by (vm_compute; reflexivity).
  exact (conj Hinit (init_establishes ring_maze ring_grid Hinit)).
Defined.

(** X4.  Moves can be taken back: when [neighbors] offers [t] at a cell [s]
    that is itself in bounds and not a wall, it offers [s] at [t], under the
    opposite action.  So a route can be walked backwards. *)
Theorem neighbors_symmetric (g : Maze) (s t : Z * Z) (a : string) :
  Maze.passable g s →
  (a, t) ∈ Maze.neighbors g s →
  (∃ a', (a', s) ∈ Maze.neighbors g t
         ∧ (a, a') ∈ [("right", "left"); ("down", "up");
                      ("left", "right"); ("up", "down")]%string)
  ∧ ∀ u n, walk g t u n → Maze.passable g u → walk g u t n.
Proof.
  intros Hs Ha. split.
  - apply neighbors_elem in Ha as [Hd Hp]. destruct s as [i j]. simpl in *.
    repeat (apply elem_of_cons in Hd as [[= -> ->]|Hd]);
      [| | | |by apply elem_of_nil in Hd].
    + exists "left"%string. split; [|set_solver]. apply neighbors_elem. split; [|done].
      simpl. replace (j + 1 - 1) with j by lia. set_solver.
    + exists "up"%string. split; [|set_solver]. apply neighbors_elem. split; [|done].
      simpl. replace (i + 1 - 1) with i by lia. set_solver.
    + exists "right"%string. split; [|set_solver]. apply neighbors_elem. split; [|done].
      simpl. replace (j - 1 + 1) with j by lia. set_solver.
    + exists "down"%string. split; [|set_solver]. apply neighbors_elem. split; [|done].
      simpl. replace (i - 1 + 1) with i by lia. set_solver.
  - assert (Hpt : Maze.passable g t) by (apply neighbors_elem in Ha as [_ ?]; done).
    clear s a Hs Ha. intros u n Hw. revert Hpt.
    induction Hw as [t|t m u n [Hadj Hpm] Hw IH]; intros Hpt Hpu; [constructor|].
    eapply walk_snoc; [by apply IH|]. split; [|done].
    unfold adjacent in *. lia.
Qed.

Lemma neighbors_symmetric_witness :
  Maze.passable ring_grid (0, 0)
  ∧ ("right"%string, (0, 1)) ∈ Maze.neighbors ring_grid (0, 0)
  ∧ ∃ a', (a', (0, 0)) ∈ Maze.neighbors ring_grid (0, 1)
          ∧ ("right"%string, a') ∈ [("right", "left"); ("down", "up");
                                     ("left", "right"); ("up", "down")]%string.
Proof.
  assert (Hp : Maze.passable ring_grid (0, 0)) by (vm_compute; repeat split; discriminate).
  assert (Hn : ("right"%string, (0, 1)) ∈ Maze.neighbors ring_grid (0, 0))
    by (vm_compute; apply list_elem_of_here).
  exact (conj Hp (conj Hn (proj1 (neighbors_symmetric ring_grid _ _ _ Hp Hn)))).
Defined.

(** X5.  [neighbors] returns at most four entries, with four different
    actions and four different cells, and never the cell it was asked
    about. *)
Theorem neighbors_distinct (g : Maze) (s : Z * Z) :
  (length (Maze.neighbors g s) ≤ 4)%nat
  ∧ NoDup (Maze.neighbors g s).*1
  ∧ NoDup (Maze.neighbors g s).*2
  ∧ s ∉ (Maze.neighbors g s).*2.
Proof.
  pose proof (neighbors_sublist g s) as Hsub.
  assert (NoDup (Maze.directions s).*1 ∧ NoDup (Maze.directions s).*2
          ∧ s ∉ (Maze.directions s).*2) as (H1 & H2 & H3).
  { destruct s as [i j]. simpl. split_and!.
    - repeat (apply NoDup_cons; split; [set_solver|]). apply NoDup_nil_2.
    - repeat (apply NoDup_cons; split;
              [rewrite ?elem_of_cons, elem_of_nil; intros H;
               repeat destruct H as [H|H]; try done; inversion H; lia|]).
      apply NoDup_nil_2.
    - rewrite !elem_of_cons, elem_of_nil. intros H.
      repeat destruct H as [H|H]; try done; inversion H; lia. }
  split_and!.
  - apply sublist_length in Hsub. destruct s. simpl in Hsub. lia.
  - eapply sublist_NoDup; [done|]. by apply fmap_sublist.
  - eapply sublist_NoDup; [done|]. by apply fmap_sublist.
  - intros Hin. apply H3. eapply elem_of_sublist; [done|]. by apply fmap_sublist.
Qed.

(** X6.  The heuristic is the Manhattan distance to the goal: it is never
    negative, it is zero at the goal only, one move changes it by exactly
    one, and it never exceeds the number of moves of a route to the goal. *)
Theorem heuristic_admissible (g : Maze) (s : Z * Z) :
  0 ≤ Maze.heuristic g s
  ∧ (Maze.heuristic g s = 0 ↔ s = Maze.goal g)
  ∧ (∀ t, adjacent s t → Z.abs (Maze.heuristic g s - Maze.heuristic g t) = 1)
  ∧ (∀ n, walk g s (Maze.goal g) n → Maze.heuristic g s ≤ Z.of_nat n).
Proof.
  split_and!.
  - apply heuristic_nonneg.
  - apply heuristic_zero.
  - intros t. unfold adjacent, Maze.heuristic. lia.
  - intros n Hw. pose proof (heuristic_walk g _ _ _ Hw) as H.
    by rewrite heuristic_goal, Z.add_0_r in H.
Qed.

(** * Further properties of solve *)

(** X7.  On a constructed grid solve ends, whatever the selector: the loop
    takes fewer turns than twice the square of the cell count plus two, the
    bound that solve is run with. *)
Theorem solve_terminates (maze_str : string) (g : Maze) (algorithm : string) :
  Maze.init maze_str = Ok g →
  ∃ r, Maze.solve_within (2 * Z.to_nat (Maze.height g * Maze.width g) ^ 2 + 2)
                         g algorithm = Some r
       ∧ Maze.solve g algorithm = Some r.
Proof.
  intros [Hwf _]%init_Ok.
  destruct (solve_returns g algorithm Hwf) as [r Hr]. exists r. split; [|done].
  unfold Maze.solve, Maze.turns_bound in Hr.
  by replace (Z.to_nat (Maze.height g * Maze.width g) ^ 2)%nat
    with (Z.to_nat (Maze.height g * Maze.width g)
          * Z.to_nat (Maze.height g * Maze.width g))%nat by (simpl; lia).
Qed.

Lemma solve_terminates_witness :
  Maze.init notebook_maze = Ok notebook_grid
  ∧ ∃ r, Maze.solve_within
           (2 * Z.to_nat (Maze.height notebook_grid * Maze.width notebook_grid) ^ 2 + 2)
           notebook_grid "greedy" = Some r
         ∧ Maze.solve notebook_grid "greedy" = Some r.
Proof.
  assert (Hinit : Maze.init notebook_maze = Ok notebook_grid)
    by (vm_compute; reflexivity).
  exact (conj Hinit (solve_terminates notebook_maze notebook_grid "greedy" Hinit)).
Defined.

(** X8.  At every turn of the loop, under either selector, heappop hands
    out a node of the frontier whose cost plus heuristic is least, and leaves
    the other nodes of the frontier. *)
Theorem frontier_pop_least (g : Maze) (algorithm : string) (st : Maze.locals)
    (m : Node) (F' : list Node) :
  reached g algorithm st →
  heapq.heappop Node.lt (Maze.frontier st) = Some (m, F') →
  Maze.frontier st ≡ₚ m :: F'
  ∧ ∀ n, n ∈ Maze.frontier st →
      Node.cost m + Node.heuristic m ≤ Node.cost n + Node.heuristic n.
Proof.
  intros Hst Hpop. split; [by apply (heappop_perm Node.lt)|].
  by destruct (popped_least_fkey g algorithm st m F' Hst Hpop).
Qed.

Lemma frontier_pop_least_witness :
  ∃ m F',
    frontier_keys open_locals = [((3, 3), 6, 0); ((3, 0), 5, 3); ((3, 0), 3, 3)]
    ∧ reached open_grid "greedy" open_locals
    ∧ heapq.heappop Node.lt (Maze.frontier open_locals) = Some (m, F')
    ∧ (Node.state m, Node.cost m, Node.heuristic m) = ((3, 3), 6, 0)
    ∧ Maze.frontier open_locals ≡ₚ m :: F'
    ∧ ∀ n, n ∈ Maze.frontier open_locals →
        Node.cost m + Node.heuristic m ≤ Node.cost n + Node.heuristic n.
Proof.
  assert (Hkeys : frontier_keys open_locals
                  = [((3, 3), 6, 0); ((3, 0), 5, 3); ((3, 0), 3, 3)])
    by (vm_compute; reflexivity).
  assert (Hst : reached open_grid "greedy" open_locals)
    by (exists 14%nat; vm_compute; reflexivity).
  eexists _, _.
  assert (Hpop : heapq.heappop Node.lt (Maze.frontier open_locals) = Some (_, _))
    by (vm_compute; reflexivity).
  refine (conj Hkeys (conj Hst (conj Hpop (conj _
    (frontier_pop_least open_grid "greedy" _ _ _ Hst Hpop))))).
  vm_compute; reflexivity.
Defined.

(** X9.  One turn of the loop only adds to the bookkeeping: a cell with a
    recorded cost keeps one, no higher than before; the visited set only
    grows; the log of pushes is only extended. *)
Theorem turn_monotone (g : Maze) (algorithm : string) (st st' : Maze.locals) :
  Maze.turn g algorithm st = inr st' →
  (∀ s v, Maze.visited st !! s = Some v →
     ∃ v', Maze.visited st' !! s = Some v' ∧ v' ≤ v)
  ∧ Maze.all_visited st ⊆ Maze.all_visited st'
  ∧ Maze.pushed st `prefix_of` Maze.pushed st'.
Proof.
  assert (Hrelax : ∀ m x st0,
    (∀ s v, Maze.visited st0 !! s = Some v →
       ∃ v', Maze.visited (Maze.relax g algorithm m st0 x) !! s = Some v' ∧ v' ≤ v)
    ∧ Maze.all_visited st0 ⊆ Maze.all_visited (Maze.relax g algorithm m st0 x)
    ∧ Maze.pushed st0 `prefix_of` Maze.pushed (Maze.relax g algorithm m st0 x)).
  { intros m [a t] st0. rewrite relax_unfold.
    destruct (Maze.improves _ t _) eqn:Himp;
      [|split_and!; [intros s v Hv; exists v; split; [done|lia]|done|done]].
    apply improves_true in Himp. simpl. split_and!.
    - intros s v Hv. destruct (decide (s = t)) as [->|Hne].
      + rewrite lookup_insert_eq. eexists; split; [done|].
        destruct Himp as [?|(old & Hold & Hlt)]; [congruence|].
        assert (old = v) by congruence. lia.
      + rewrite lookup_insert_ne by done. exists v. split; [done|lia].
    - set_solver.
    - by apply prefix_app_r. }
  assert (Hfold : ∀ m l st0,
    (∀ s v, Maze.visited st0 !! s = Some v →
       ∃ v', Maze.visited (fold_left (Maze.relax g algorithm m) l st0) !! s = Some v'
             ∧ v' ≤ v)
    ∧ Maze.all_visited st0 ⊆ Maze.all_visited (fold_left (Maze.relax g algorithm m) l st0)
    ∧ Maze.pushed st0 `prefix_of` Maze.pushed (fold_left (Maze.relax g algorithm m) l st0)).
  { intros m l. induction l as [|x l IH]; intros st0; simpl;
      [split_and!; [intros s v Hv; exists v; split; [done|lia]|done|done]|].
    destruct (Hrelax m x st0) as (H1 & H2 & H3).
    destruct (IH (Maze.relax g algorithm m st0 x)) as (H1' & H2' & H3').
    split_and!.
    - intros s v Hv. destruct (H1 s v Hv) as (v1 & Hv1 & ?).
      destruct (H1' s v1 Hv1) as (v2 & Hv2 & ?). exists v2. split; [done|lia].
    - set_solver.
    - by etransitivity. }
  unfold Maze.turn. destruct (heapq.heappop _ _) as [[m F']|]; [|done].
  case_bool_decide; [done|]. intros [= <-]. unfold Maze.expand.
  apply (Hfold m _ (Maze.mk_locals F' (Maze.visited st) (Maze.all_visited st)
                      (Maze.pushed st))).
Qed.

Lemma turn_monotone_witness :
  ∃ st',
    Maze.turn ring_grid "a*" (Maze.init_locals ring_grid) = inr st'
    ∧ Maze.all_visited (Maze.init_locals ring_grid) ⊆ Maze.all_visited st'
    ∧ Maze.pushed (Maze.init_locals ring_grid) `prefix_of` Maze.pushed st'.
Proof.
  destruct (Maze.turn ring_grid "a*" (Maze.init_locals ring_grid)) as [r|st'] eqn:Hturn;
    [by vm_compute in Hturn|].
  exists st'. split; [reflexivity|].
  exact (proj2 (turn_monotone ring_grid "a*" _ st' Hturn)).
Defined.

(** X14.  Every node waiting in the frontier is the end of a route from the
    start with as many moves as its cost, carries the Manhattan distance of
    its state as heuristic, and its state has a recorded cost no higher than
    its own: an entry can be stale, never cheaper than the table says. *)
Theorem frontier_nodes_recorded (g : Maze) (algorithm : string)
    (st : Maze.locals) (n : Node) :
  reached g algorithm st → n ∈ Maze.frontier st →
  (∃ k, Node.cost n = Z.of_nat k ∧ walk g (Maze.start g) (Node.state n) k)
  ∧ Node.heuristic n = Maze.heuristic g (Node.state n)
  ∧ ∃ v, Maze.visited st !! Node.state n = Some v ∧ v ≤ Node.cost n.
Proof.
  intros Hinv%reached_inv Hn.
  pose proof (inv_nodes _ _ _ _ Hinv n Hn) as Hok.
  split_and!.
  - destruct (node_ok_walk g n Hok) as (k & ? & _ & ?). eauto.
  - by apply node_ok_heuristic.
  - apply (inv_bound _ _ _ _ Hinv n n Hn). destruct n; simpl; left.
Qed.

Lemma frontier_nodes_recorded_witness :
  ∃ n,
    reached open_grid "a*" open_locals
    ∧ Maze.frontier open_locals !! 1%nat = Some n
    ∧ (Node.state n, Node.cost n) = ((3, 0), 5)
    ∧ Maze.visited open_locals !! (3, 0) = Some 3
    ∧ (∃ k, Node.cost n = Z.of_nat k
            ∧ walk open_grid (Maze.start open_grid) (Node.state n) k)
    ∧ Node.heuristic n = Maze.heuristic open_grid (Node.state n)
    ∧ ∃ v, Maze.visited open_locals !! Node.state n = Some v ∧ v ≤ Node.cost n.
Proof.
  assert (Hst : reached open_grid "a*" open_locals)
    by (exists 14%nat; vm_compute; reflexivity).
  eexists _.
  assert (Hn : Maze.frontier open_locals !! 1%nat = Some _)
    by (vm_compute; reflexivity).
  refine (conj Hst (conj Hn (conj _ (conj _
    (frontier_nodes_recorded open_grid "a*" _ _ Hst (list_elem_of_lookup_2 _ _ _ Hn)))))).
  - vm_compute; reflexivity.
  - vm_compute; reflexivity.
Defined.

(** X10.  Every cell of the visited set that solve returns can be reached
    from the start by moves, and so is in bounds and not a wall. *)
Theorem visited_reachable (maze_str : string) (g : Maze) (algorithm : string)
    (path : list (Z * Z)) (actions : list (option string)) (vis : gset (Z * Z)) :
  Maze.init maze_str = Ok g →
  Maze.solve g algorithm = Some (Ok (path, actions, vis)) →
  ∀ s, s ∈ vis →
    reachable g s
    ∧ 0 ≤ s.1 < Maze.height g ∧ 0 ≤ s.2 < Maze.width g
    ∧ Maze.at_ g s ≠ Some "#"%char.
Proof.
  intros [Hwf _]%init_Ok Hsolve s Hs.
  destruct (solve_within_Some _ _ _ _ Hsolve) as [[_ ?]|(_ & st & Hst & Hturn)]; [done|].
  pose proof (reached_inv _ _ _ Hst) as Hinv.
  apply turn_inl in Hturn as [[_ ?]|(m & F' & _ & _ & [= _ ->])]; [done|].
  rewrite (inv_dom _ _ _ _ Hinv) in Hs. apply elem_of_dom in Hs as [v Hv].
  destruct (inv_real _ _ _ _ Hinv s v Hv) as (k & _ & Hw).
  split; [by exists k|].
  apply (walk_passable g _ _ _ Hw), start_passable, Hwf.
Qed.

Lemma visited_reachable_witness :
  Maze.init ring_maze = Ok ring_grid
  ∧ Maze.solve ring_grid "a*" = Some (Ok ring_answer)
  ∧ ∀ s, s ∈ ring_answer.2 →
      reachable ring_grid s
      ∧ 0 ≤ s.1 < Maze.height ring_grid ∧ 0 ≤ s.2 < Maze.width ring_grid
      ∧ Maze.at_ ring_grid s ≠ Some "#"%char.
Proof.
  assert (Hinit : Maze.init ring_maze = Ok ring_grid) by (vm_compute; reflexivity).
  assert (Hsolve : Maze.solve ring_grid "a*" = Some (Ok ring_answer))
    by (vm_compute; reflexivity).
  exact (conj Hinit (conj Hsolve
    (visited_reachable ring_maze ring_grid "a*" _ _ _ Hinit Hsolve))).
Defined.

(** X11.  A returned path visits no cell twice; it has at least one step, at
    least as many steps as the Manhattan distance from the start to the goal,
    and no more cells than the grid has. *)
Theorem path_simple (maze_str : string) (g : Maze) (algorithm : string)
    (path : list (Z * Z)) (actions : list (option string)) (vis : gset (Z * Z)) :
  Maze.init maze_str = Ok g →
  Maze.solve g algorithm = Some (Ok (path, actions, vis)) →
  NoDup path
  ∧ 1 ≤ Z.of_nat (length actions)
  ∧ Maze.heuristic g (Maze.start g) ≤ Z.of_nat (length actions)
  ∧ Z.of_nat (length path) ≤ Maze.height g * Maze.width g.
Proof.
  intros Hinit Hsolve. pose proof Hinit as [Hwf _]%init_Ok.
  destruct (solve_within_Some _ _ _ _ Hsolve) as [[_ ?]|(_ & st & Hst & Hturn)]; [done|].
  pose proof (reached_inv _ _ _ Hst) as Hinv.
  apply turn_inl in Hturn as [[_ ?]|(m & F' & Hpop & Hgoal & [= Hrec _])]; [done|].
  assert (Hin : m ∈ Maze.frontier st).
  { apply (elem_of_heappop _ _ _ Hpop). by left. }
  pose proof (inv_nodes _ _ _ _ Hinv m Hin) as Hm.
  pose proof (inv_simple _ _ _ _ Hinv m Hin) as Hnd.
  destruct (reconstruct_route g m Hm) as (Hroute & Hlen & Hpath).
  destruct (node_ok_walk g m Hm) as (k & Hk & Hlin & Hw). rewrite Hgoal in Hw.
  rewrite <- Hrec in *. simpl in *.
  pose proof (heuristic_walk g _ _ _ Hw) as Hadm. rewrite heuristic_goal in Hadm.
  assert (Maze.heuristic g (Maze.start g) ≠ 0) as Hpos.
  { intros H0%heuristic_zero. by apply (start_ne_goal g Hwf). }
  pose proof (heuristic_nonneg g (Maze.start g)).
  split_and!.
  - by rewrite Hpath, reverse_Permutation.
  - lia.
  - lia.
  - rewrite Hpath, length_reverse, length_fmap.
    pose proof (lineage_length g m Hwf Hm Hnd) as Hle.
    rewrite (length_cells g Hwf) in Hle. lia.
Qed.

Lemma path_simple_witness :
  Maze.init ring_maze = Ok ring_grid
  ∧ Maze.solve ring_grid "a*" = Some (Ok ring_answer)
  ∧ NoDup ring_answer.1.1
  ∧ 1 ≤ Z.of_nat (length ring_answer.1.2)
  ∧ Maze.heuristic ring_grid (Maze.start ring_grid) ≤ Z.of_nat (length ring_answer.1.2)
  ∧ Z.of_nat (length ring_answer.1.1) ≤ Maze.height ring_grid * Maze.width ring_grid.
Proof.
  assert (Hinit : Maze.init ring_maze = Ok ring_grid) by (vm_compute; reflexivity).
  assert (Hsolve : Maze.solve ring_grid "a*" = Some (Ok ring_answer))
    by (vm_compute; reflexivity).
  exact (conj Hinit (conj Hsolve
    (path_simple ring_maze ring_grid "a*" _ _ _ Hinit Hsolve))).
Defined.

(** X12.  On a solvable grid every accepted selector, greedy included,
    returns a path with the least number of moves. *)
Theorem solve_optimal_any_selector (maze_str : string) (g : Maze) (algorithm : string) :
  Maze.init maze_str = Ok g → solvable g →
  Py.lower algorithm = "a*"%string ∨ Py.lower algorithm = "greedy"%string →
  ∃ path actions vis k,
    Maze.solve g algorithm = Some (Ok (path, actions, vis))
    ∧ shortest g k
    ∧ length actions = k
    ∧ length path = S k.
Proof.
  intros [Hwf _]%init_Ok [k Hk]%shortest_exists Hvalid%bad_algorithm_false.
  destruct (solve_returns g algorithm Hwf) as [r Hr].
  destruct (solve_within_Some _ _ _ _ Hr) as [[? _]|(_ & st & Hst & Hturn)]; [congruence|].
  pose proof (reached_inv _ _ _ Hst) as Hinv.
  apply turn_inl in Hturn as [[Hnil _]|(m & F' & Hpop & Hgoal & ->)].
  - destruct (opt_witness g k st Hk Hinv (reached_opt g k _ st Hk Hst)) as (n & _ & Hn & _).
    rewrite Hnil in Hn. by apply elem_of_nil in Hn.
  - pose proof (goal_cost g k _ st m F' Hk Hst Hpop Hgoal) as Hcost.
    assert (Hm : node_ok g m).
    { apply Hinv. simpl. apply (elem_of_heappop _ _ _ Hpop). by left. }
    destruct (reconstruct_route g m Hm) as (Hroute & Hlen & _).
    destruct (route_facts _ _ _ _ Hroute) as (_ & _ & Hlen' & _).
    destruct (Maze.reconstruct g m) as [path actions]. simpl in *.
    exists path, actions, (Maze.all_visited st), k.
    split_and!; [done|done|lia|lia].
Qed.

Lemma solve_optimal_any_selector_witness :
  Maze.init detour_maze = Ok detour_grid ∧ solvable detour_grid
  ∧ (Py.lower "Greedy" = "a*"%string ∨ Py.lower "Greedy" = "greedy"%string)
  ∧ ∃ path actions vis k,
      Maze.solve detour_grid "Greedy" = Some (Ok (path, actions, vis))
      ∧ shortest detour_grid k ∧ length actions = k ∧ length path = S k.
Proof.
  assert (Hinit : Maze.init detour_maze = Ok detour_grid) by (vm_compute; reflexivity).
  assert (Hsolv : solvable detour_grid).
  { exists 4%nat.
    apply (walk_cons _ _ (0, 2)); [vm_compute; repeat split; discriminate|].
    apply (walk_cons _ _ (1, 2)); [vm_compute; repeat split; discriminate|].
    apply (walk_cons _ _ (2, 2)); [vm_compute; repeat split; discriminate|].
    apply (walk_cons _ _ (2, 1)); [vm_compute; repeat split; discriminate|].
    apply walk_nil. }
  assert (Hvalid : Py.lower "Greedy" = "a*"%string ∨ Py.lower "Greedy" = "greedy"%string)
    by (right; vm_compute; reflexivity).
  exact (conj Hinit (conj Hsolv (conj Hvalid
    (solve_optimal_any_selector detour_maze detour_grid "Greedy" Hinit Hsolv Hvalid)))).
Defined.

Lemma lower_char_idemp (c : ascii) : Py.lower_char (Py.lower_char c) = Py.lower_char c.
Proof. destruct c as [[] [] [] [] [] [] [] []]; reflexivity. Qed.

Lemma lower_idemp (s : string) : Py.lower (Py.lower s) = Py.lower s.
Proof. induction s as [|c s IH]; simpl; [done|]. by rewrite lower_char_idemp, IH. Qed.

(** X13.  The selector is read through [lower()] only: solve returns the
    same for a selector and for its lower-cased form, and any two accepted
    selectors give the same outcome on every grid. *)
Theorem solve_case_insensitive (g : Maze) (algorithm : string) :
  Maze.solve g (Py.lower algorithm) = Maze.solve g algorithm
  ∧ ∀ other,
      Py.lower algorithm = "a*"%string ∨ Py.lower algorithm = "greedy"%string →
      Py.lower other = "a*"%string ∨ Py.lower other = "greedy"%string →
      Maze.solve g other = Maze.solve g algorithm.
Proof.
  assert (Hloop : ∀ a b n st, Maze.loop n g a st = Maze.loop n g b st).
  { intros a b n. induction n as [|n IH]; intros st; simpl; [done|].
    replace (Maze.turn g a st) with (Maze.turn g b st)
      by (unfold Maze.turn, Maze.expand, Maze.relax; reflexivity).
    destruct (Maze.turn g b st); [done|]. apply IH. }
  split.
  - unfold Maze.solve, Maze.solve_within, Maze.bad_algorithm.
    rewrite lower_idemp. destruct (negb _); [done|]. apply Hloop.
  - intros other Ha%bad_algorithm_false Hb%bad_algorithm_false.
    unfold Maze.solve, Maze.solve_within. rewrite Ha, Hb. apply Hloop.
Qed.

(** X18.  The returned actions are all moves: none is [None], each is one of
    right, down, left, up (so the caller can join them), and replaying them
    from the start gives the returned path, step by step. *)
Theorem actions_replay (g : Maze) (algorithm : string)
    (path : list (Z * Z)) (actions : list (option string)) (vis : gset (Z * Z)) :
  Maze.solve g algorithm = Some (Ok (path, actions, vis)) →
  ∀ i x, actions !! i = Some x →
    ∃ a s t, x = Some a
             ∧ a ∈ ["right"; "down"; "left"; "up"]%string
             ∧ path !! i = Some s ∧ path !! S i = Some t
             ∧ (a, t) ∈ Maze.directions s.
Proof.
  intros Hsolve i x Hx.
  destruct (solve_within_Some _ _ _ _ Hsolve) as [[_ ?]|(_ & st & Hst & Hturn)]; [done|].
  pose proof (reached_inv _ _ _ Hst) as Hinv.
  apply turn_inl in Hturn as [[_ ?]|(m & F' & Hpop & Hgoal & [= Hrec _])]; [done|].
  assert (Hm : node_ok g m).
  { apply Hinv. simpl. apply (elem_of_heappop _ _ _ Hpop). by left. }
  destruct (reconstruct_route g m Hm) as (Hroute & _ & _).
  rewrite <- Hrec in Hroute. simpl in Hroute.
  destruct (route_facts _ _ _ _ Hroute) as (_ & _ & Hlen & Hsteps).
  pose proof (lookup_lt_Some _ _ _ Hx) as Hi.
  destruct (lookup_lt_is_Some_2 path i) as [s Hs]; [lia|].
  destruct (lookup_lt_is_Some_2 path (S i)) as [t Ht]; [lia|].
  destruct (Hsteps i s t Hs Ht) as (a & Ha & [Hd _]%neighbors_elem).
  exists a, s, t. split_and!; try done; [congruence|].
  destruct s as [si sj]. simpl in Hd.
  repeat (apply elem_of_cons in Hd as [[= -> _]|Hd]; [set_solver|]).
  by apply elem_of_nil in Hd.
Qed.

Lemma actions_replay_witness :
  Maze.solve ring_grid "a*" = Some (Ok ring_answer)
  ∧ ring_answer.1.2 !! 2%nat = Some (Some "down"%string)
  ∧ ∃ a s t, Some "down"%string = Some a
             ∧ a ∈ ["right"; "down"; "left"; "up"]%string
             ∧ ring_answer.1.1 !! 2%nat = Some s ∧ ring_answer.1.1 !! 3%nat = Some t
             ∧ (a, t) ∈ Maze.directions s.
Proof.
  assert (Hsolve : Maze.solve ring_grid "a*" = Some (Ok ring_answer))
    by (vm_compute; reflexivity).
  assert (Hx : ring_answer.1.2 !! 2%nat = Some (Some "down"%string)) by reflexivity.
  exact (conj Hsolve (conj Hx
    (actions_replay ring_grid "a*" _ _ _ Hsolve 2%nat _ Hx))).
Defined.

(** * Further properties of the construction *)

Lemma scan_last_ext (rows : list (list ascii)) (seen seen' : nat → nat → Prop)
    (c : ascii) (recorded : option (Z * Z)) :
  (∀ i j, seen' i j → seen i j) →
  scan_last rows seen c recorded → scan_last rows seen' c recorded.
Proof. intros Hsub Hlast i j Hs. apply Hlast. by apply Hsub. Qed.

Lemma scan_cell_last (rows : list (list ascii)) (seen : nat → nat → Prop)
    (i j : nat) sg :
  (∀ i' j', seen i' j' → (i' < i ∨ (i' = i ∧ j' < j))%nat) →
  scan_last rows seen "A" sg.1 → scan_last rows seen "B" sg.2 →
  scan_last rows (λ i' j', seen i' j' ∨ (i' = i ∧ j' = j)) "A"
            (Maze.scan_cell rows i j sg).1
  ∧ scan_last rows (λ i' j', seen i' j' ∨ (i' = i ∧ j' = j)) "B"
              (Maze.scan_cell rows i j sg).2.
Proof.
  intros Hbefore HA HB. unfold Maze.scan_cell.
  case_bool_decide as EA; [|case_bool_decide as EB]; simpl; split.
  - intros i' j' Hs _. eexists; split; [done|]. unfold row_major_le. simpl.
    destruct Hs as [Hs|[-> ->]]; [|lia]. destruct (Hbefore i' j' Hs); lia.
  - intros i' j' [Hs|[-> ->]] Hc; [by apply HB|congruence].
  - intros i' j' [Hs|[-> ->]] Hc; [by apply HA|congruence].
  - intros i' j' Hs _. eexists; split; [done|]. unfold row_major_le. simpl.
    destruct Hs as [Hs|[-> ->]]; [|lia]. destruct (Hbefore i' j' Hs); lia.
  - intros i' j' [Hs|[-> ->]] Hc; [by apply HA|congruence].
  - intros i' j' [Hs|[-> ->]] Hc; [by apply HB|congruence].
Qed.

Lemma scan_row_last (rows : list (list ascii)) (seen : nat → nat → Prop)
    (w i : nat) sg :
  (∀ i' j', seen i' j' → (i' < i)%nat) →
  scan_last rows seen "A" sg.1 → scan_last rows seen "B" sg.2 →
  scan_last rows (λ i' j', seen i' j' ∨ (i' = i ∧ (j' < w)%nat)) "A"
            (Maze.scan_row rows w sg i).1
  ∧ scan_last rows (λ i' j', seen i' j' ∨ (i' = i ∧ (j' < w)%nat)) "B"
              (Maze.scan_row rows w sg i).2.
Proof.
  intros Hbefore HA HB. unfold Maze.scan_row, Py.range.
  induction w as [|w [IHA IHB]].
  - simpl. split; (eapply scan_last_ext; [|done]); intros i' j' [?|[_ ?]]; (done || lia).
  - rewrite seq_S, fold_left_app. simpl.
    assert (Hb : ∀ i' j', seen i' j' ∨ i' = i ∧ (j' < w)%nat →
                   (i' < i ∨ i' = i ∧ j' < w)%nat).
    { intros i' j' [Hs|[-> ?]]; [left; exact (Hbefore i' j' Hs)|right; split; [done|lia]]. }
    destruct (scan_cell_last rows _ i w _ Hb IHA IHB) as [HA' HB'].
    split; (eapply scan_last_ext; [|done]); simpl;
        intros i' j' [?|[-> ?]]; auto;
        (destruct (decide (j' = w)) as [->|]; [by right|left; right; split; [done|lia]]).
Qed.

Lemma scan_last_spec (rows : list (list ascii)) (h w : nat) :
  scan_last rows (λ i j, (i < h)%nat ∧ (j < w)%nat) "A" (Maze.scan rows h w).1
  ∧ scan_last rows (λ i j, (i < h)%nat ∧ (j < w)%nat) "B" (Maze.scan rows h w).2.
Proof.
  unfold Maze.scan, Py.range. induction h as [|h [IHA IHB]].
  - simpl. split; intros i j [? _]; lia.
  - rewrite seq_S, fold_left_app. simpl.
    assert (Hb : ∀ i' j' : nat, (i' < h)%nat ∧ (j' < w)%nat → (i' < h)%nat)
      by (by intros i' j' [? _]).
    destruct (scan_row_last rows _ w h _ Hb IHA IHB) as [HA' HB'].
    split; (eapply scan_last_ext; [|done]); simpl; intros i' j' [? ?];
        (destruct (decide (i' = h)) as [->|]; [by right|left; split; [lia|done]]).
Qed.

(** X2.  When the text holds the start marker more than once, the start is
    the last one in reading order (row by row, left to right); the same holds
    for the goal marker. *)
Theorem init_last_marker (maze_str : string) (g : Maze) :
  Maze.init maze_str = Ok g →
  ∀ i j,
    (Maze.at_nat (Maze.rows_of maze_str) i j = Some "A"%char →
       row_major_le (Z.of_nat i, Z.of_nat j) (Maze.start g))
    ∧ (Maze.at_nat (Maze.rows_of maze_str) i j = Some "B"%char →
       row_major_le (Z.of_nat i, Z.of_nat j) (Maze.goal g)).
Proof.
  unfold Maze.init. destruct (Maze.shape _) as [[h w]|] eqn:Hshape; [|done].
  pose proof (scan_last_spec (Maze.rows_of maze_str) h w) as [HA HB].
  destruct (Maze.scan _ h w) as [[s|] [t|]]; try done.
  intros [= <-] i j. simpl in *. split; intros Hc.
  - destruct (HA i j) as (p & [= <-] & Hle); [by eapply at_nat_in_shape|done|done].
  - destruct (HB i j) as (p & [= <-] & Hle); [by eapply at_nat_in_shape|done|done].
Qed.

Lemma init_last_marker_witness :
  Maze.init two_starts = Ok (grid_of two_starts)
  ∧ Maze.at_nat (Maze.rows_of two_starts) 0 0 = Some "A"%char
  ∧ Maze.start (grid_of two_starts) = (0, 1)
  ∧ row_major_le (Z.of_nat 0, Z.of_nat 0) (Maze.start (grid_of two_starts)).
Proof.
  assert (Hinit : Maze.init two_starts = Ok (grid_of two_starts))
    by (vm_compute; reflexivity).
  assert (Hc : Maze.at_nat (Maze.rows_of two_starts) 0 0 = Some "A"%char)
    by (vm_compute; reflexivity).
  assert (Hs : Maze.start (grid_of two_starts) = (0, 1)) by (vm_compute; reflexivity).
  exact (conj Hinit (conj Hc (conj Hs
    (proj1 (init_last_marker two_starts _ Hinit 0%nat 0%nat) Hc)))).
Defined.

(** ** Blank lines *)

Lemma split_nonempty (sep : ascii) (s : string) : Py.split sep s ≠ [].
Proof.
  induction s as [|c s IH]; simpl; [done|].
  destruct (Ascii.eqb c sep); [done|]. by destruct (Py.split sep s).
Qed.

Lemma split_app (sep : ascii) (s1 s2 : string) :
  Py.split sep (s1 ++ String sep s2) = Py.split sep s1 ++ Py.split sep s2.
Proof.
  induction s1 as [|c s1 IH]; simpl.
  - by rewrite Ascii.eqb_refl.
  - destruct (Ascii.eqb c sep); [by rewrite IH|].
    rewrite IH. pose proof (split_nonempty sep s1).
    by destruct (Py.split sep s1).
Qed.

Lemma rows_of_app (s1 s2 : string) :
  Maze.rows_of (s1 ++ String "010" s2) = Maze.rows_of s1 ++ Maze.rows_of s2.
Proof.
  unfold Maze.rows_of. by rewrite split_app, List.filter_app, map_app.
Qed.

Lemma split_chars (sep : ascii) (s piece : string) (c : ascii) :
  piece ∈ Py.split sep s → c ∈ list_ascii_of_string piece →
  c ∈ list_ascii_of_string s.
Proof.
  revert piece. induction s as [|a s IH]; intros piece; simpl.
  - by intros ->%list_elem_of_singleton.
  - destruct (Ascii.eqb a sep).
    + intros [->|Hin]%elem_of_cons Hc; [by apply elem_of_nil in Hc|].
      right. by eapply IH.
    + pose proof (split_nonempty sep s).
      destruct (Py.split sep s) as [|hd tl] eqn:Hsplit; [done|].
      intros [->|Hin]%elem_of_cons Hc.
      * simpl in Hc. apply elem_of_cons in Hc as [->|Hc]; [left|right].
        apply (IH hd); [left|done].
      * right. apply (IH piece); [by right|done].
Qed.

Lemma strip_all_space (s : string) : all_space s → Py.strip s = EmptyString.
Proof.
  unfold Py.strip, all_space. induction s as [|c s IH]; intros Hs; simpl; [done|].
  rewrite (Hs c) by left. apply IH. intros c' Hc'. apply Hs. by right.
Qed.

Lemma rows_of_blank (s : string) : all_space s → Maze.rows_of s = [].
Proof.
  intros Hs. unfold Maze.rows_of.
  assert (∀ l : list string, (∀ piece, piece ∈ l → all_space piece) →
            List.filter (λ line, Py.truthy (Py.strip line)) l = []) as Hfilter.
  { induction l as [|p l IH]; intros Hl; simpl; [done|].
    rewrite strip_all_space by (apply Hl; left). simpl.
    apply IH. intros piece ?. apply Hl. by right. }
  rewrite Hfilter; [done|].
  intros piece Hp c Hc. apply Hs. by eapply split_chars.
Qed.

Lemma init_rows (a b : string) :
  Maze.rows_of a = Maze.rows_of b → Maze.init a = Maze.init b.
Proof. unfold Maze.init. by intros ->. Qed.

(** X3.  Lines of white space only are ignored wherever they stand: before
    the first row, between two rows, or after the last row, a blank line
    leaves the constructed maze, or the failure, unchanged. *)
Theorem init_ignores_blank_lines (s1 blank s2 : string) :
  all_space blank →
  Maze.init (s1 ++ String "010" (blank ++ String "010" s2))
    = Maze.init (s1 ++ String "010" s2)
  ∧ Maze.init (blank ++ String "010" s2) = Maze.init s2
  ∧ Maze.init (s1 ++ String "010" blank) = Maze.init s1.
Proof.
  intros Hb. split_and!; apply init_rows;
    rewrite ?rows_of_app, (rows_of_blank blank Hb), ?app_nil_r; done.
Qed.

Lemma init_ignores_blank_lines_witness :
  all_space "  "
  ∧ Maze.init ("A.." ++ String "010" ("  " ++ String "010" "..B"))
    = Maze.init ("A.." ++ String "010" "..B").
Proof.
  assert (Hb : all_space "  ").
  { intros c Hc. vm_compute in Hc.
    repeat (apply elem_of_cons in Hc as [->|Hc]; [reflexivity|]).
    by apply elem_of_nil in Hc. }
  exact (conj Hb (proj1 (init_ignores_blank_lines "A.." "  " "..B" Hb))).
Defined.

(** * The gridworld step function *)

Lemma step_cases (state : Z * Z) (action : string) :
  (state = (0, 1) ∧ Gridworld.step state action = Some ((4, 1), 10))
  ∨ (state = (0, 3) ∧ Gridworld.step state action = Some ((2, 3), 5))
  ∨ (state ≠ (0, 1) ∧ state ≠ (0, 3)
     ∧ ((Gridworld.get Gridworld.action_vectors action = None
         ∧ Gridworld.step state action = None)
        ∨ ∃ di dj, Gridworld.get Gridworld.action_vectors action = Some (di, dj)
                   ∧ Z.abs di + Z.abs dj = 1
                   ∧ ((Gridworld.in_grid (state.1 + di, state.2 + dj)
                       ∧ Gridworld.step state action
                         = Some ((state.1 + di, state.2 + dj), 0))
                      ∨ (¬ Gridworld.in_grid (state.1 + di, state.2 + dj)
                         ∧ Gridworld.step state action = Some (state, -1))))).
Proof.
  unfold Gridworld.step, Gridworld.special_states. cbn [Gridworld.teleport].
  case_bool_decide as H1; [left; split; [done|reflexivity]|].
  case_bool_decide as H3; [right; left; split; [done|reflexivity]|].
  right; right. split; [done|]. split; [done|]. destruct state as [i j].
  assert (Hvec : ∀ di dj, Gridworld.get Gridworld.action_vectors action = Some (di, dj) →
                   Z.abs di + Z.abs dj = 1).
  { unfold Gridworld.action_vectors. cbn [Gridworld.get]. intros di dj.
    repeat (destruct (String.eqb _ action); [intros [= <- <-]; lia|]). done. }
  destruct (Gridworld.get Gridworld.action_vectors action) as [[di dj]|]; [|by left].
  right. exists di, dj. split; [done|]. split; [by apply Hvec|].
  unfold Gridworld.in_grid. cbn [fst snd].
  case_bool_decide; [case_bool_decide|]; cbn [andb]; [left|right..]; (split; [|done]); lia.
Qed.



(** X16.  [step] returns the state it was given exactly when the reward is
    -1, that is when the move would leave the grid: the test
    [state == next_state] that ends an episode fires on such a move and on
    no other. *)
Theorem step_same_state_iff_wall (state next : Z * Z) (action : string) (reward : Z) :
  Gridworld.step state action = Some (next, reward) →
  (next = state ↔ reward = -1)
  ∧ (reward = -1 ↔
       state ≠ (0, 1) ∧ state ≠ (0, 3)
       ∧ ∃ di dj, Gridworld.get Gridworld.action_vectors action = Some (di, dj)
                  ∧ ¬ Gridworld.in_grid (state.1 + di, state.2 + dj)).
Proof.
  intros Hstep.
  destruct (step_cases state action)
    as [[-> H]|[[-> H]|(N1 & N3 & [[_ H]|(di & dj & Hv & Hd & [[Hg H]|[Hg H]])])]];
    rewrite H in Hstep; try done; injection Hstep as <- <-.
  - split; split; try done. by intros (? & _).
  - split; split; try done. by intros (_ & ? & _).
  - split; split; try done.
    + destruct state as [i j]. simpl. intros [= ? ?]. lia.
    + intros (_ & _ & di' & dj' & Hv' & Hout). rewrite Hv in Hv'.
      injection Hv' as <- <-. done.
  - split; split; try done. intros _. split_and!; try done. eauto.
Qed.

Lemma step_same_state_iff_wall_witness :
  Gridworld.step (0, 0) "north" = Some ((0, 0), -1)
  ∧ ((0, 0) = (0, 0) ↔ -1 = -1).
Proof.
  assert (Hstep : Gridworld.step (0, 0) "north" = Some ((0, 0), -1))
    by (vm_compute; reflexivity).
  exact (conj Hstep (proj1 (step_same_state_iff_wall _ _ _ _ Hstep))).
Defined.

(** X17.  At the two teleport cells [step] does not read the action: any
    string, an unknown one too, gives the teleport.  Elsewhere [step] fails
    with a KeyError exactly when the action is none of north, south, east,
    west. *)
Theorem step_key_error (state : Z * Z) (action : string) :
  Gridworld.step (0, 1) action = Some ((4, 1), 10)
  ∧ Gridworld.step (0, 3) action = Some ((2, 3), 5)
  ∧ (Gridworld.step state action = None ↔
       state ≠ (0, 1) ∧ state ≠ (0, 3)
       ∧ action ∉ ["north"; "south"; "east"; "west"]%string).
Proof.
  split; [done|]. split; [done|].
  assert (Hget : Gridworld.get Gridworld.action_vectors action = None ↔
                 action ∉ ["north"; "south"; "east"; "west"]%string).
  { unfold Gridworld.action_vectors. cbn [Gridworld.get]. rewrite !not_elem_of_cons.
    destruct (String.eqb_spec "north" action) as [E|?];
      [split; [done|intros (? & ? & ? & ? & _); congruence]|].
    destruct (String.eqb_spec "south" action) as [E|?];
      [split; [done|intros (? & ? & ? & ? & _); congruence]|].
    destruct (String.eqb_spec "east" action) as [E|?];
      [split; [done|intros (? & ? & ? & ? & _); congruence]|].
    destruct (String.eqb_spec "west" action) as [E|?];
      [split; [done|intros (? & ? & ? & ? & _); congruence]|].
    split; [|done]. intros _. split_and!; try done. apply not_elem_of_nil. }
  destruct (step_cases state action)
    as [[-> H]|[[-> H]|(N1 & N3 & [[Hv H]|(di & dj & Hv & _ & [[_ H]|[_ H]])])]];
    rewrite H.
  - split; [done|]. by intros (? & _).
  - split; [done|]. by intros (_ & ? & _).
  - split; [|done]. intros _. split_and!; try done. by apply Hget.
  - split; [done|]. intros (_ & _ & Hn%Hget). congruence.
  - split; [done|]. intros (_ & _ & Hn%Hget). congruence.
Qed.
